(** * Goluxis: the RESP codec (pkg/resp) and the command registry (pkg/command)

    A shallow embedding of [pkg/resp/protocol.go] and of the [Extension]
    registry of package [command], with the properties of the codec and of
    the registry proved over it.

    Conventions of the embedding:
    - a Go [string] or [[]byte] on the wire is a list of 8-bit characters;
    - [int64] and [int] are 64-bit: values are integers of [Z], and the one
      addition the code performs on them ([length+2]) wraps around;
    - a method of [*Reader] takes the bytes still unread and returns an
      [outcome]: a value with the bytes left, a Go [error], or a run-time
      panic;
    - a method of [*Writer] takes and returns the bytes flushed to the sink;
    - [make] panics on a negative length and on a size above the limit of
      the Go runtime for one allocation ([maxAlloc]); below this limit an
      allocation succeeds. *)

From Stdlib Require Import ZArith Ascii Bool List Lia.
From stdpp Require Import gmap strings list.

(** After the codec and the registry come the callers of the two packages in
    the example servers: the connection loop with [Context] and [redisConn]
    (module [server]) and the sliding-window rate limiter (module
    [ratelimiter]). The modules of definitions come first, the modules of
    lemmas and theorems after them. *)

Module resp.

Abbreviation bytes := (list ascii).

Definition CR : ascii := "013"%char.
Definition LF : ascii := "010"%char.

(** [CRLF = "\r\n"] *)
Definition CRLF : bytes := [CR; LF].

(** RESP type bytes *)
Definition SimpleString : ascii := "+"%char.
Definition Error : ascii := "-"%char.
Definition Integer : ascii := ":"%char.
Definition BulkString : ascii := "$"%char.
Definition Array : ascii := "*"%char.

(** ** Errors, panics and outcomes *)

(** The two causes of a [*strconv.NumError]. *)
Inductive num_err : Type :=
| ErrSyntax
| ErrRange.

(** The [error] values the reader can return. *)
Inductive error : Type :=
| EOF                                     (* io.EOF *)
| ErrUnexpectedEOF                        (* io.ErrUnexpectedEOF *)
| ErrInvalidFormat                        (* errors.New("invalid RESP format") *)
| NumError (num : bytes) (why : num_err)  (* from strconv.ParseInt *)
| UnknownTypeByte (typ : ascii).          (* fmt.Errorf("unknown RESP type byte: %c", typ) *)

(** Run-time panics of the Go runtime. *)
Inductive panic : Type :=
| MakesliceLenOutOfRange
| SliceBoundsOutOfRange.

Inductive outcome (A : Type) : Type :=
| Ok (a : A) (rest : bytes)
| Fail (e : error)
| Panic (p : panic).

Arguments Ok {A} a rest.
Arguments Fail {A} e.
Arguments Panic {A} p.

Definition bind {A B : Type} (m : outcome A) (k : A -> bytes -> outcome B)
  : outcome B :=
  match m with
  | Ok a rest => k a rest
  | Fail e => Fail e
  | Panic p => Panic p
  end.

Notation "'do' ( x , r ) <- m ; k" := (bind m (fun x r => k))
  (at level 10, x name, r name, m at level 100, k at level 200,
   format "'[v' 'do'  ( x ,  r )  <-  m ; '/' k ']'").

(** What [ReadObject] hands back in its [interface{}]: a [string] (for a
    simple string and for a bulk string alike), an [error] made by
    [errors.New], an [int64], or a [[]interface{}], which may be the nil
    slice. *)
#[warnings="-register-all"]
Inductive Object : Type :=
| OString (s : bytes)
| OError (msg : bytes)
| OInt64 (i : Z)
| ONilSlice
| OSlice (elems : list Object).

(** ** 64-bit integers *)

Definition MaxInt64 : Z := 9223372036854775807.
Definition MinInt64 : Z := -9223372036854775808.
Definition MaxUint64 : Z := 18446744073709551615.

(** The value of an [int64] expression whose mathematical value is [z]. *)
Definition wrap64 (z : Z) : Z := (z + 2 ^ 63) mod 2 ^ 64 - 2 ^ 63.

(** ** make *)

(** [runtime.maxAlloc], the most bytes the Go runtime gives to one
    allocation: [1 << 48] on linux/amd64 and on the other 64-bit platforms
    with 48 bits of heap address. *)
Definition maxAlloc : Z := 281474976710656.

(** The size in bytes of an element of a [[]byte] and of a [[]interface{}]
    (an interface value is two words). *)
Definition byte_size : Z := 1.
Definition interface_size : Z := 16.

(** [make([]T, len)] panics with [makeslice: len out of range] when [len] is
    negative or when [len] elements of [size] bytes are more than
    [maxAlloc]. *)
Definition make_panics (size len : Z) : bool :=
  (len <? 0)%Z || (maxAlloc <? size * len)%Z.

(** ** strconv.ParseInt(s, 10, 64) *)

Definition digit_of (c : ascii) : option Z :=
  let n := Z.of_N (N_of_ascii c) in
  if (48 <=? n)%Z && (n <=? 57)%Z then Some (n - 48)%Z else None.

(** The digit loop of [strconv.ParseUint] in base 10: a byte that is not a
    digit is a syntax error, a value above [MaxUint64] is a range error,
    reported with [MaxUint64], at the digit that overflows. *)
Fixpoint ParseUint_loop (n : Z) (s : bytes) : Z * option num_err :=
  match s with
  | [] => (n, None)
  | c :: s' =>
      match digit_of c with
      | None => (0%Z, Some ErrSyntax)
      | Some d =>
          if (MaxUint64 <? 10 * n + d)%Z then (MaxUint64, Some ErrRange)
          else ParseUint_loop (10 * n + d)%Z s'
      end
  end.

Definition ParseUint (s : bytes) : Z * option num_err :=
  match s with
  | [] => (0%Z, Some ErrSyntax)
  | _ => ParseUint_loop 0 s
  end.

Definition ParseInt (s0 : bytes) : Z + error :=
  match s0 with
  | [] => inr (NumError s0 ErrSyntax)
  | c :: s' =>
      let neg := Ascii.eqb c "-" in
      let s := if Ascii.eqb c "+" || Ascii.eqb c "-" then s' else s0 in
      match ParseUint s with
      | (_, Some ErrSyntax) => inr (NumError s0 ErrSyntax)
      | (un, _) =>
          let cutoff := (2 ^ 63)%Z in
          if negb neg && (cutoff <=? un)%Z then inr (NumError s0 ErrRange)
          else if neg && (cutoff <? un)%Z then inr (NumError s0 ErrRange)
          else inl (if neg then (- un)%Z else un)
      end
  end.

(** ** fmt's [%d] verb *)

Definition digit_char (d : Z) : ascii := ascii_of_N (Z.to_N (48 + d)).

Fixpoint fmt_digits (fuel : nat) (n : Z) (acc : bytes) : bytes :=
  match fuel with
  | O => acc
  | S fuel' =>
      if (n <? 10)%Z then digit_char n :: acc
      else fmt_digits fuel' (n / 10)%Z (digit_char (n mod 10) :: acc)
  end.

(** Decimal digits of [n >= 0], most significant first. *)
Definition fmt_nat (n : Z) : bytes :=
  fmt_digits (S (Z.to_nat (Z.log2 n))) n [].

Definition fmt_d (i : Z) : bytes :=
  if (i <? 0)%Z then "-"%char :: fmt_nat (- i) else fmt_nat i.

(** ** The buffered reader *)

Definition ReadByte (s : bytes) : outcome ascii :=
  match s with
  | [] => Fail EOF
  | c :: rest => Ok c rest
  end.

(** [bufio.Reader.ReadString]: the bytes up to and including the first
    [delim]; [io.EOF] when the stream ends before one. *)
Fixpoint ReadString (delim : ascii) (s : bytes) : outcome bytes :=
  match s with
  | [] => Fail EOF
  | c :: s' =>
      if Ascii.eqb c delim then Ok [c] s'
      else do (line, rest) <- ReadString delim s'; Ok (c :: line) rest
  end.

(** [io.ReadFull] into a buffer of [n >= 0] bytes. *)
Definition ReadFull (n : Z) (s : bytes) : outcome bytes :=
  if (Z.of_nat (length s) <? n)%Z then
    match s with
    | [] => Fail EOF
    | _ => Fail ErrUnexpectedEOF
    end
  else Ok (take (Z.to_nat n) s) (drop (Z.to_nat n) s).

(** [strings.HasSuffix] *)
Definition HasSuffix (s suffix : bytes) : bool :=
  (length suffix <=? length s)%nat
  && bool_decide (drop (length s - length suffix) s = suffix).

(** The slice expression [buf[:n]]. *)
Definition slice_to (buf : bytes) (n : Z) (rest : bytes) : outcome bytes :=
  if (n <? 0)%Z || (Z.of_nat (length buf) <? n)%Z
  then Panic SliceBoundsOutOfRange
  else Ok (take (Z.to_nat n) buf) rest.

(** readLine reads a line terminated by CRLF *)
Definition readLine (s : bytes) : outcome bytes :=
  do (line, rest) <- ReadString LF s;
  if (length line <? 2)%nat
     || negb (Ascii.eqb (nth (length line - 2) line zero) CR)
  then Fail ErrInvalidFormat
  else Ok (take (length line - 2) line) rest.

(** readInteger reads a RESP integer *)
Definition readInteger (s : bytes) : outcome Z :=
  do (line, rest) <- readLine s;
  match ParseInt line with
  | inl i => Ok i rest
  | inr e => Fail e
  end.

(** readBulkString reads a RESP bulk string *)
Definition readBulkString (s : bytes) : outcome bytes :=
  do (length, rest) <- readInteger s;
  if (length =? -1)%Z then Ok [] rest
  else
    let n := wrap64 (length + 2) in
    if make_panics byte_size n then Panic MakesliceLenOutOfRange
    else
      do (buf, rest') <- ReadFull n rest;
      if negb (HasSuffix buf CRLF) then Fail ErrInvalidFormat
      else slice_to buf length rest'.

(** [ReadObject], [readArray] and the loop of [readArray] call each other;
    [fuel] bounds the depth of the calls, and [None] means it ran out. *)
Definition obind {A B : Type} (m : option (outcome A))
    (k : A -> bytes -> option (outcome B)) : option (outcome B) :=
  match m with
  | None => None
  | Some (Ok a rest) => k a rest
  | Some (Fail e) => Some (Fail e)
  | Some (Panic p) => Some (Panic p)
  end.

(** The body of [ReadObject], given what the call of [readArray] does. *)
Definition ReadObject_body (readArray : bytes -> option (outcome Object))
    (s : bytes) : option (outcome Object) :=
  obind (Some (ReadByte s)) (fun typ s1 =>
    if Ascii.eqb typ SimpleString then
      Some (do (line, rest) <- readLine s1; Ok (OString line) rest)
    else if Ascii.eqb typ Error then
      Some (do (msg, rest) <- readLine s1; Ok (OError msg) rest)
    else if Ascii.eqb typ Integer then
      Some (do (i, rest) <- readInteger s1; Ok (OInt64 i) rest)
    else if Ascii.eqb typ BulkString then
      Some (do (b, rest) <- readBulkString s1; Ok (OString b) rest)
    else if Ascii.eqb typ Array then
      readArray s1
    else Some (Fail (UnknownTypeByte typ))).

(** The body of [readArray], given its [for] loop. *)
Definition readArray_body
    (loop : Z -> bytes -> option (outcome (list Object)))
    (s : bytes) : option (outcome Object) :=
  obind (Some (readInteger s)) (fun length rest =>
    if (length =? -1)%Z then Some (Ok ONilSlice rest)
    else if make_panics interface_size length
    then Some (Panic MakesliceLenOutOfRange)
    else
      obind (loop length rest) (fun array rest' =>
        Some (Ok (OSlice array) rest'))).

(** One turn of the loop [for i := range array] of [readArray] with [todo]
    slots still to fill: the result is the objects read, in the order of
    their slots. *)
Definition readArray_loop_body
    (ReadObject : bytes -> option (outcome Object))
    (loop : Z -> bytes -> option (outcome (list Object)))
    (todo : Z) (s : bytes) : option (outcome (list Object)) :=
  if (todo <=? 0)%Z then Some (Ok [] s)
  else
    obind (ReadObject s) (fun x rest =>
      obind (loop (todo - 1)%Z rest) (fun xs rest' =>
        Some (Ok (x :: xs) rest'))).

Fixpoint ReadObject_fuel (fuel : nat) (s : bytes) : option (outcome Object) :=
  match fuel with
  | O => None
  | S fuel' => ReadObject_body (readArray_fuel fuel') s
  end

with readArray_fuel (fuel : nat) (s : bytes) : option (outcome Object) :=
  match fuel with
  | O => None
  | S fuel' => readArray_body (readArray_loop_fuel fuel') s
  end

with readArray_loop_fuel (fuel : nat) (todo : Z) (s : bytes)
  : option (outcome (list Object)) :=
  match fuel with
  | O => None
  | S fuel' =>
      readArray_loop_body (ReadObject_fuel fuel') (readArray_loop_fuel fuel')
        todo s
  end.

(** Fuel that is enough for a stream [s] (see [ReadObject_total]). *)
Definition enough (s : bytes) : nat := 2 * length s + 2.

(** ReadObject reads a RESP object from the reader *)
Definition ReadObject (s : bytes) : option (outcome Object) :=
  ReadObject_fuel (enough s) s.

(** readArray reads a RESP array *)
Definition readArray (s : bytes) : option (outcome Object) :=
  readArray_fuel (enough s) s.

Definition readArray_loop (todo : Z) (s : bytes)
  : option (outcome (list Object)) :=
  readArray_loop_fuel (enough s) todo s.

(** Bytes of a string literal. *)
Definition B (s : string) : bytes := String.list_ascii_of_string s.

(** ** The writer *)

(** A [Writer] over a sink that accepts every write: [sink] is all that has
    been flushed to it. *)
Record Writer : Type := { sink : bytes }.

(** NewWriter creates a new RESP writer *)
Definition NewWriter : Writer := {| sink := [] |}.

(** writeString writes a string and flushes the writer *)
Definition writeString (s : bytes) (w : Writer) : Writer * option error :=
  ({| sink := sink w ++ s |}, None).

(** WriteSimpleString writes a RESP simple string *)
Definition WriteSimpleString (s : bytes) (w : Writer) : Writer * option error :=
  writeString ([SimpleString] ++ s ++ CRLF) w.

(** WriteError writes a RESP error; [msg] is [err.Error()]. *)
Definition WriteError (msg : bytes) (w : Writer) : Writer * option error :=
  writeString ([Error] ++ msg ++ CRLF) w.

(** WriteInteger writes a RESP integer *)
Definition WriteInteger (i : Z) (w : Writer) : Writer * option error :=
  writeString ([Integer] ++ fmt_d i ++ CRLF) w.

(** WriteBulkString writes a RESP bulk string *)
Definition WriteBulkString (s : bytes) (w : Writer) : Writer * option error :=
  if bool_decide (s = []) then
    writeString ([BulkString] ++ B "-1" ++ CRLF) w
  else
    writeString
      ([BulkString] ++ fmt_d (Z.of_nat (length s)) ++ CRLF ++ s ++ CRLF) w.

(** WriteArray writes a RESP array header *)
Definition WriteArray (length : Z) (w : Writer) : Writer * option error :=
  if (length <? 0)%Z then writeString ([Array] ++ B "-1" ++ CRLF) w
  else writeString ([Array] ++ fmt_d length ++ CRLF) w.

(** ** Value trees and their encoding *)

(** A value to put on the wire, by the [Writer] method that writes it.
    [WriteArray] writes a header only: the elements of an array are written
    after it by the calls for each of them, in order. *)
#[warnings="-register-all"]
Inductive Value : Type :=
| VSimpleString (s : bytes)
| VError (msg : bytes)
| VInteger (i : Z)
| VBulkString (s : bytes)
| VNullArray
| VArray (elems : list Value).

(** Run [k] when the call before it returned a nil error. *)
Definition and_then (r : Writer * option error)
    (k : Writer -> Writer * option error) : Writer * option error :=
  match r with
  | (w, None) => k w
  | (w, Some e) => (w, Some e)
  end.

(** The calls that write [v] on [w], stopping at the first error. *)
Fixpoint encode (v : Value) (w : Writer) : Writer * option error :=
  match v with
  | VSimpleString s => WriteSimpleString s w
  | VError msg => WriteError msg w
  | VInteger i => WriteInteger i w
  | VBulkString s => WriteBulkString s w
  | VNullArray => WriteArray (-1) w
  | VArray elems =>
      and_then (WriteArray (Z.of_nat (length elems)) w)
        ((fix each (vs : list Value) (w : Writer) : Writer * option error :=
            match vs with
            | [] => (w, None)
            | v :: vs' => and_then (encode v w) (each vs')
            end) elems)
  end.

(** The bytes that encoding [v] with a new writer puts on the wire. *)
Definition encoded (v : Value) : bytes := sink (fst (encode v NewWriter)).

(** The Go value of a tree: what the caller holds before writing it, and what
    [ReadObject] returns for it. A simple string and a bulk string are both
    a [string]. *)
Fixpoint goValue (v : Value) : Object :=
  match v with
  | VSimpleString s => OString s
  | VError msg => OError msg
  | VInteger i => OInt64 i
  | VBulkString s => OString s
  | VNullArray => ONilSlice
  | VArray elems => OSlice (map goValue elems)
  end.

(** The trees whose texts fit on a line and whose numbers fit their Go
    types: no line feed in a simple string or an error message, integers in
    [int64], and strings and arrays of a size that [make] allocates, with
    room for the two bytes of CRLF after a string. *)
Fixpoint wire_safe (v : Value) : bool :=
  match v with
  | VSimpleString s => bool_decide (LF ∉ s)
  | VError msg => bool_decide (LF ∉ msg)
  | VInteger i => (MinInt64 <=? i)%Z && (i <=? MaxInt64)%Z
  | VBulkString s => (Z.of_nat (length s) + 2 <=? maxAlloc)%Z
  | VNullArray => true
  | VArray elems =>
      (interface_size * Z.of_nat (length elems) <=? maxAlloc)%Z
      && forallb wire_safe elems
  end.

(** The pure form of [encoded]. *)
Fixpoint wire (v : Value) : bytes :=
  match v with
  | VSimpleString s => [SimpleString] ++ s ++ CRLF
  | VError msg => [Error] ++ msg ++ CRLF
  | VInteger i => [Integer] ++ fmt_d i ++ CRLF
  | VBulkString s =>
      if bool_decide (s = []) then [BulkString] ++ B "-1" ++ CRLF
      else [BulkString] ++ fmt_d (Z.of_nat (length s)) ++ CRLF ++ s ++ CRLF
  | VNullArray => [Array] ++ B "-1" ++ CRLF
  | VArray elems =>
      [Array] ++ fmt_d (Z.of_nat (length elems)) ++ CRLF
      ++ concat (map wire elems)
  end.

(** ** Specification vocabulary *)

(** [reads s xs s']: reading objects one after the other from [s] gives
    [xs], in this order, and leaves [s']. *)
Inductive reads : bytes -> list Object -> bytes -> Prop :=
| reads_nil s : reads s [] s
| reads_cons s x s' xs s'' :
    ReadObject s = Some (Ok x s') ->
    reads s' xs s'' ->
    reads s (x :: xs) s''.

(** The number a string of decimal digits denotes. *)
Definition decimal_value (d : bytes) : Z :=
  fold_left (fun acc c => (10 * acc + (Z.of_N (N_of_ascii c) - 48))%Z) d 0%Z.

Definition is_digit (c : ascii) : Prop := is_Some (digit_of c).

(** [d] is the decimal numeral of [n]: digits only, at least one, no
    leading zero but for zero itself. *)
Definition decimal_of (n : Z) (d : bytes) : Prop :=
  d <> [] /\ Forall is_digit d /\ decimal_value d = n
  /\ (forall l, d = "0"%char :: l -> l = []).

(** The errors of truncated input. *)
Definition truncated (e : error) : Prop := e = EOF \/ e = ErrUnexpectedEOF.

(** A tree with every kind of value in it. *)
Definition example_tree : Value :=
  VArray [VSimpleString (B "OK"); VError (B "ERR unknown command");
          VInteger (-42); VBulkString (B "hello"); VBulkString [];
          VNullArray; VArray [VInteger 7; VArray []]].

End resp.

(** * Package command: the registry *)

Module command.

(** [errors.New(msg)]: an error is known by its message. *)
Inductive error : Type :=
| errors_New (msg : string).

(** Common errors *)
Definition ErrInvalidArgCount : error := errors_New "invalid number of arguments".
Definition ErrInvalidArgType : error := errors_New "invalid argument type".
Definition ErrCommandNotFound : error := errors_New "command not found".

Section Registry.

(** [HandlerFunc] is [func(ctx *Context) error]; the registry stores
    handlers and never calls them, so any type of function values will do.
    A nil handler is [None]. *)
Variable HandlerFunc : Type.

(** Command represents a Redis command. The registry holds its commands
    through pointers and never writes through them: a [*Command] is [None]
    when nil and the command it points to otherwise. The mutexes are left
    out: calls are taken one at a time. *)
Record Command : Type := {
  Name : string;
  Handler : option HandlerFunc;
  MinArgs : Z;
  MaxArgs : Z;
  Description : string
}.

(** New creates a new Command instance *)
Definition New (name : string) : Command :=
  {| Name := name;
     Handler := None;
     MinArgs := 0;
     MaxArgs := -1; (* -1 means unlimited *)
     Description := EmptyString |}.

(** Extension represents a Redis extension that can contain multiple
    commands. [commands] is a map as [NewExtension] makes it; the nil map
    of an [Extension] built without [NewExtension] is not modelled. *)
Record Extension : Type := {
  ExtensionName : string;
  commands : gmap string Command
}.

(** NewExtension creates a new Extension instance *)
Definition NewExtension (name : string) : Extension :=
  {| ExtensionName := name; commands := ∅ |}.

(** AddCommand registers a new command with the extension *)
Definition AddCommand (e : Extension) (cmd : option Command)
  : Extension * option error :=
  match cmd with
  | None => (e, Some (errors_New "command cannot be nil"))
  | Some c =>
      if bool_decide (Name c = EmptyString) then
        (e, Some (errors_New "command name cannot be empty"))
      else
        match Handler c with
        | None => (e, Some (errors_New "command handler cannot be nil"))
        | Some _ =>
            ({| ExtensionName := ExtensionName e;
                commands := <[Name c := c]> (commands e) |}, None)
        end
  end.

(** GetCommand retrieves a command by name *)
Definition GetCommand (e : Extension) (name : string)
  : option Command * option error :=
  match commands e !! name with
  | None => (None, Some ErrCommandNotFound)
  | Some cmd => (Some cmd, None)
  end.

(** ** Specification vocabulary *)

(** A command that [AddCommand] accepts. *)
Definition valid (c : Command) : bool :=
  negb (String.eqb (Name c) EmptyString) && bool_decide (is_Some (Handler c)).

(** The registry after a history of calls of [AddCommand], whatever they
    returned. *)
Definition register_all (history : list (option Command)) (e : Extension)
  : Extension :=
  fold_left (fun e cmd => fst (AddCommand e cmd)) history e.

(** The last valid command of a history whose name is [name], byte for
    byte; [before] when there is none. *)
Fixpoint last_registered (name : string) (history : list (option Command))
    (before : option Command) : option Command :=
  match history with
  | [] => before
  | None :: rest => last_registered name rest before
  | Some c :: rest =>
      last_registered name rest
        (if valid c && String.eqb (Name c) name then Some c else before)
  end.

(** The registries a program can build: a map is only ever made by
    [NewExtension] and changed by [AddCommand]. *)
Inductive reachable : Extension -> Prop :=
| reachable_new name : reachable (NewExtension name)
| reachable_add e cmd : reachable e -> reachable (fst (AddCommand e cmd)).

(** Every command stored has a name, which is its key, and a handler. *)
Definition well_formed (e : Extension) : Prop :=
  forall name c, commands e !! name = Some c ->
    Name c = name /\ Name c <> EmptyString /\ is_Some (Handler c).

End Registry.

Arguments Name {HandlerFunc} c.
Arguments Handler {HandlerFunc} c.
Arguments MinArgs {HandlerFunc} c.
Arguments MaxArgs {HandlerFunc} c.
Arguments Description {HandlerFunc} c.
Arguments ExtensionName {HandlerFunc} e.
Arguments commands {HandlerFunc} e.
Arguments New {HandlerFunc} name.
Arguments NewExtension {HandlerFunc} name.
Arguments AddCommand {HandlerFunc} e cmd.
Arguments GetCommand {HandlerFunc} e name.
Arguments valid {HandlerFunc} c.
Arguments register_all {HandlerFunc} history e.
Arguments last_registered {HandlerFunc} name history before.
Arguments reachable {HandlerFunc} e.
Arguments well_formed {HandlerFunc} e.

(** Commands for the examples: a handler is given by the reply it sends
    for its arguments. *)
Definition reply_hello (args : list string) : string := "Hello, World!".
Definition reply_second (args : list string) : string := nth 1 args EmptyString.

Definition hello_cmd : Command (list string -> string) :=
  {| Name := "HELLO.WORLD";
     Handler := Some reply_hello;
     MinArgs := 0;
     MaxArgs := -1;
     Description := "Returns a greeting message" |}.

Definition echo_cmd : Command (list string -> string) :=
  {| Name := "ECHO.FIRST";
     Handler := Some reply_second;
     MinArgs := 2;
     MaxArgs := 2;
     Description := EmptyString |}.

Definition echo_cmd' : Command (list string -> string) :=
  {| Name := "ECHO.FIRST";
     Handler := Some reply_hello;
     MinArgs := 0;
     MaxArgs := -1;
     Description := EmptyString |}.

End command.

(** * Vocabulary for further properties of the codec *)

Module resp_frames.
Import resp.

(** The value read at the head of [s] comes from a frame of [s] alone. *)
Definition framed_object (s : bytes) : Prop :=
  forall x rest, ReadObject s = Some (Ok x rest) ->
    exists frame, s = frame ++ rest /\ frame <> [] /\
      forall rest', ReadObject (frame ++ rest') = Some (Ok x rest').

(** The same for the objects that the loop of [readArray] reads. *)
Definition framed_loop (s : bytes) : Prop :=
  forall n xs rest, readArray_loop n s = Some (Ok xs rest) ->
    exists frame, s = frame ++ rest /\
      forall rest', readArray_loop n (frame ++ rest') = Some (Ok xs rest').

(** A stream that stops inside the frame at the head of [s] gives a
    truncated-input error. *)
Definition cut_object (s : bytes) : Prop :=
  forall x rest p q, ReadObject s = Some (Ok x rest) ->
    s = p ++ q ++ rest -> q <> [] ->
    exists e, ReadObject p = Some (Fail e) /\ truncated e.

Definition cut_loop (s : bytes) : Prop :=
  forall n xs rest p q, readArray_loop n s = Some (Ok xs rest) ->
    s = p ++ q ++ rest -> q <> [] ->
    exists e, readArray_loop n p = Some (Fail e) /\ truncated e.

End resp_frames.

(** * The connection loop of the example servers (package main) *)

(** [handleConnection], [redisConn] and the handler of [HELLO.WORLD], with
    [Context] and [RedisConn] of package [command]. The four example servers
    have the same [handleConnection] and the same [redisConn]. *)

Module server.
Import resp.

(** RedisConn represents a connection to Redis: the methods take and return
    the state of the connection. *)
Class RedisConn (C : Type) : Type := {
  WriteString : bytes -> C -> C * option command.error;
  WriteInt : Z -> C -> C * option command.error;
  WriteArray : Z -> C -> C * option command.error;
  WriteNull : C -> C * option command.error;
  WriteError : command.error -> C -> C * option command.error;
  Flush : C -> C * option command.error
}.

(** Context represents the execution context for a Redis command: the
    arguments and the connection, the two fields that the loop sets. *)
Record Context (C : Type) : Type := {
  Args : list bytes;
  Conn : C
}.

Arguments Args {C} c.
Arguments Conn {C} c.

(** A method of [Context] calls the method of its connection: the context
    returned holds the connection after the call. *)
Definition on_conn {C : Type} (call : C -> C * option command.error)
    (c : Context C) : Context C * option command.error :=
  let (conn, err) := call (Conn c) in ({| Args := Args c; Conn := conn |}, err).

(** Reply sends a string response back to Redis *)
Definition Reply {C : Type} `{RedisConn C} (s : bytes) (c : Context C)
  : Context C * option command.error := on_conn (WriteString s) c.


(** ReplyArray starts an array response with the given length *)
Definition ReplyArray {C : Type} `{RedisConn C} (length : Z) (c : Context C)
  : Context C * option command.error := on_conn (WriteArray length) c.



(** [err.Error()] *)
Definition message (err : command.error) : bytes :=
  match err with
  | command.errors_New msg => String.list_ascii_of_string msg
  end.

(** [redisConn] adapts a [resp.Writer]. *)
Record redisConn : Type := { writer : Writer }.

(** The sink of the writer accepts every write: the error that the methods
    of [redisConn] pass on is nil. *)
Definition written (r : Writer * option resp.error)
  : redisConn * option command.error :=
  ({| writer := fst r |}, None).

#[export] Instance redisConn_RedisConn : RedisConn redisConn := {
  WriteString s c := written (resp.WriteBulkString s (writer c));
  WriteInt i c := written (resp.WriteInteger i (writer c));
  WriteArray length c := written (resp.WriteArray length (writer c));
  WriteNull c := written (resp.WriteBulkString [] (writer c));
  WriteError err c := written (resp.WriteError (message err) (writer c));
  Flush c := (c, None) (* Writer already flushes after each write *)
}.

(** [fmt.Sprint] of what [ReadObject] returns: a string as it is, an error
    by its message, an integer in decimal, a slice between brackets with
    spaces between its elements. *)
Fixpoint Sprint (obj : Object) : bytes :=
  match obj with
  | OString s => s
  | OError msg => msg
  | OInt64 i => fmt_d i
  | ONilSlice => B "[]"
  | OSlice elems =>
      B "[" ++
      (fix spaced (xs : list Object) : bytes :=
         match xs with
         | [] => []
         | [x] => Sprint x
         | x :: xs' => Sprint x ++ B " " ++ spaced xs'
         end) elems
      ++ B "]"
  end.

Section Server.

(** What the handlers keep between requests. *)
Variable Store : Type.

(** A handler is a function that returns: it gets the context and the
    store, and gives back the store, the context with the connection after
    its replies, and its error. *)
Definition HandlerFunc : Type :=
  Context redisConn -> Store -> Store * Context redisConn * option command.error.

(** The part of [handleConnection] after a request is read. [None] is a
    run-time panic: the call of a nil handler. *)
Definition dispatch (ext : command.Extension HandlerFunc) (obj : Object)
    (rConn : redisConn) (store : Store) : option (redisConn * Store) :=
  let reply_error (text : string) :=
    Some (fst (WriteError (command.errors_New text) rConn), store) in
  match obj with
  | OString _ | OError _ | OInt64 _ => reply_error "invalid command format"
  | ONilSlice | OSlice [] => reply_error "empty command"
  | OSlice ((first :: _) as cmdArray) =>
      match first with
      | OString cmdName =>
          match command.GetCommand ext (String.string_of_list_ascii cmdName) with
          | (_, Some err) => Some (fst (WriteError err rConn), store)
          | (None, None) => None
          | (Some cmd, None) =>
              let args := map Sprint cmdArray in
              let ctx := {| Args := args; Conn := rConn |} in
              match command.Handler cmd with
              | None => None
              | Some handler =>
                  match handler ctx store with
                  | (store', ctx', Some err) =>
                      Some (fst (WriteError err (Conn ctx')), store')
                  | (store', ctx', None) => Some (Conn ctx', store')
                  end
              end
          end
      | _ => reply_error "invalid command name"
      end
  end.

(** How [handleConnection] ends: it returns when a read fails, having
    logged the error unless it is [io.EOF], or it panics. *)
Inductive ended : Type :=
| Returned (logged : option resp.error) (rConn : redisConn) (store : Store)
| Panicked.

(** The loop of [handleConnection], on the bytes the peer sends before it
    closes the connection. *)
Fixpoint handleConnection_fuel (fuel : nat)
    (ext : command.Extension HandlerFunc)
    (input : bytes) (rConn : redisConn) (store : Store) : option ended :=
  match fuel with
  | O => None
  | S fuel' =>
      match ReadObject input with
      | None => None
      | Some (Panic _) => Some Panicked
      | Some (Fail err) =>
          Some (Returned
                  (match err with EOF => None | _ => Some err end)
                  rConn store)
      | Some (Ok obj rest) =>
          match dispatch ext obj rConn store with
          | None => Some Panicked
          | Some (rConn', store') =>
              handleConnection_fuel fuel' ext rest rConn' store'
          end
      end
  end.

Definition handleConnection (ext : command.Extension HandlerFunc)
    (input : bytes) (rConn : redisConn) (store : Store) : option ended :=
  handleConnection_fuel (S (length input)) ext input rConn store.

End Server.

Arguments dispatch {Store} ext obj rConn store.
Arguments Returned {Store} logged rConn store.
Arguments Panicked {Store}.
Arguments handleConnection_fuel {Store} fuel ext input rConn store.
Arguments handleConnection {Store} ext input rConn store.

(** ** Requests *)

(** A bulk string on the wire, with its length also when it is empty. *)
Definition bulk (arg : bytes) : bytes :=
  [BulkString] ++ fmt_d (Z.of_nat (length arg)) ++ CRLF ++ arg ++ CRLF.

(** A request as a client sends it: the array of the bulk strings of the
    command name and of its arguments. *)
Definition request (args : list bytes) : bytes :=
  [Array] ++ fmt_d (Z.of_nat (length args)) ++ CRLF ++ concat (map bulk args).

(** The requests of a size that [make] allocates. *)
Definition fits (args : list bytes) : bool :=
  (interface_size * Z.of_nat (length args) <=? maxAlloc)%Z
  && forallb (fun arg => (Z.of_nat (length arg) + 2 <=? maxAlloc)%Z) args.

(** The text of the error reply to a value that is not a request, [None]
    for an array that begins with a string. *)
Definition refusal (v : Value) : option string :=
  match v with
  | VSimpleString _ | VError _ | VInteger _ | VBulkString _ =>
      Some "invalid command format"
  | VNullArray | VArray [] => Some "empty command"
  | VArray (VSimpleString _ :: _) | VArray (VBulkString _ :: _) => None
  | VArray (_ :: _) => Some "invalid command name"
  end.

(** The connection after the frame of an error reply with this text. *)
Definition with_error (text : string) (rConn : redisConn) : redisConn :=
  {| writer :=
       {| sink := sink (writer rConn)
                  ++ [Error] ++ String.list_ascii_of_string text ++ CRLF |} |}.

(** The connection after the frame of a bulk string that is not empty. *)
Definition with_bulk (s : bytes) (rConn : redisConn) : redisConn :=
  {| writer := {| sink := sink (writer rConn) ++ bulk s |} |}.

(** The handler of [HELLO.WORLD]; it keeps nothing between requests. *)
Definition helloHandler : HandlerFunc unit :=
  fun ctx store =>
    if (1 <? length (Args ctx))%nat then
      let (ctx', err) :=
        Reply (B "Hello, " ++ nth 1 (Args ctx) [] ++ B "!") ctx in
      (store, ctx', err)
    else
      let (ctx', err) := Reply (B "Hello, World!") ctx in
      (store, ctx', err).

(** [helloCmd] as [main] builds it with [command.New]. *)
Definition helloCmd : command.Command (HandlerFunc unit) :=
  {| command.Name := command.Name (@command.New (HandlerFunc unit) "HELLO.WORLD");
     command.Handler := Some helloHandler;
     command.MinArgs := command.MinArgs (@command.New (HandlerFunc unit) "HELLO.WORLD");
     command.MaxArgs := command.MaxArgs (@command.New (HandlerFunc unit) "HELLO.WORLD");
     command.Description := "Returns a greeting message" |}.

(** The registry of the hello server after [main] has registered
    [helloCmd]. *)
Definition helloExtension : command.Extension (HandlerFunc unit) :=
  fst (command.AddCommand (command.NewExtension "hello-world") (Some helloCmd)).

End server.

(** * The rate limiter example (package main) *)

(** A value of [time.Time] that [time.Now] returns is the reading of the
    monotonic clock, in nanoseconds, and a [time.Duration] is a number of
    nanoseconds; both are [int64]. The readings of the clock are inputs of
    the functions that call [time.Now]. The calls are taken one at a time:
    the mutex is left out. *)

Module ratelimiter.
Import resp.

Definition Second : Z := 1000000000.
Definition Hour : Z := 3600 * Second.

(** [t.Sub(u)] on two readings of the monotonic clock: the difference in
    [int64], or the largest or smallest duration when it does not fit. *)
Definition Sub (t u : Z) : Z :=
  let d := wrap64 (t - u) in
  if (d <? 0)%Z && (u <? t)%Z then MaxInt64
  else if (0 <? d)%Z && (t <? u)%Z then MinInt64
  else d.

(** Window represents a time window for rate limiting *)
Record Window : Type := {
  Timestamp : Z;
  Count : Z
}.

(** RateLimiter implements a sliding window rate limiter *)
Record RateLimiter : Type := {
  windows : gmap string (list Window)
}.

Definition NewRateLimiter : RateLimiter := {| windows := ∅ |}.

(** [cleanup], with the reading [now] of the clock. *)
Definition cleanup (now : Z) (key : string) (rl : RateLimiter) : RateLimiter :=
  match windows rl !! key with
  | Some ws =>
      let active :=
        List.filter (fun w => (Sub now (Timestamp w) <? Hour)%Z) ws in
      if (length active =? 0)%nat then {| windows := delete key (windows rl) |}
      else {| windows := <[key := active]> (windows rl) |}
  | None => rl
  end.

(** The handler of [RATELIMIT.ALLOW] once its three arguments are parsed:
    [now1] is the reading of the clock in [cleanup] and [now2] the one the
    handler takes after it. The result is the limiter after the call and
    whether the reply is [1] (allowed) and not [0]. *)
Definition allow (now1 now2 : Z) (key : string) (maxRequests windowSeconds : Z)
    (rl : RateLimiter) : RateLimiter * bool :=
  (* Cleanup old windows *)
  let rl := cleanup now1 key rl in
  let windowDuration := wrap64 (windowSeconds * Second) in
  (* Calculate total requests in the current window *)
  let ws := default [] (windows rl !! key) in
  let totalRequests :=
    fold_left
      (fun total w =>
         if (Sub now2 (Timestamp w) <? windowDuration)%Z
         then wrap64 (total + Count w) else total)
      ws 0%Z in
  if (maxRequests <=? totalRequests)%Z then (rl, false) (* Not allowed *)
  else
    (* Add new request to window *)
    ({| windows :=
          <[key := ws ++ [{| Timestamp := now2; Count := 1 |}]]> (windows rl) |},
     true). (* Allowed *)

(** Calls of [RATELIMIT.ALLOW] with the same arguments, one after the
    other, each with its two readings of the clock: the limiter after them
    and the readings [now2] of the calls that were allowed. *)
Fixpoint allow_all (key : string) (maxRequests windowSeconds : Z)
    (calls : list (Z * Z)) (rl : RateLimiter) : RateLimiter * list Z :=
  match calls with
  | [] => (rl, [])
  | (now1, now2) :: calls' =>
      let (rl', allowed) := allow now1 now2 key maxRequests windowSeconds rl in
      let (rl'', times) := allow_all key maxRequests windowSeconds calls' rl' in
      (rl'', if allowed then now2 :: times else times)
  end.

(** The clock does not go back, from [from] on, and its readings are in
    [int64]. *)
Fixpoint ticking (from : Z) (calls : list (Z * Z)) : bool :=
  match calls with
  | [] => true
  | (now1, now2) :: calls' =>
      (from <=? now1)%Z && (now1 <=? now2)%Z && (now2 <=? MaxInt64)%Z
      && ticking now2 calls'
  end.

(** How many of the requests allowed at [times] fall in the window that
    ends at [T]. *)
Definition in_window (windowDuration T : Z) (times : list Z) : Z :=
  Z.of_nat
    (length (List.filter (fun g => (g <=? T)%Z && (T - g <? windowDuration)%Z)
               times)).

(** What holds between the calls for [key]: [times] are the readings of
    the calls allowed so far, none after [T0]; the limiter holds for [key]
    the ones that the last [cleanup] kept, each as a window of count 1; and
    no window of time holds more than [maxRequests] of them. *)
Definition limited (key : string) (maxRequests windowSeconds : Z)
    (T0 : Z) (rl : RateLimiter) (times : list Z) : Prop :=
  (0 <= T0)%Z /\
  Forall (fun g => 0 <= g <= T0)%Z times /\
  (exists c, (c <= T0)%Z /\
     default [] (windows rl !! key)
     = map (fun g => {| Timestamp := g; Count := 1 |})
         (List.filter (fun g => (c - g <? Hour)%Z) times)) /\
  (forall T, in_window (windowSeconds * Second) T times
             <= Z.max 0 maxRequests)%Z.

End ratelimiter.

(** * Properties of the codec *)

Module resp_facts.
Import resp.

(** ** The reader primitives consume what they return *)

Lemma ReadString_Ok delim s line rest :
  ReadString delim s = Ok line rest ->
  exists l, line = l ++ [delim] /\ s = l ++ delim :: rest /\ delim ∉ l.
Proof.
  revert line rest. induction s as [|c s IH]; intros line rest H; simpl in H.
  - discriminate.
  - destruct (Ascii.eqb c delim) eqn:E.
    + apply Ascii.eqb_eq in E. subst c. inversion H; subst.
      exists []. repeat split; auto. apply not_elem_of_nil.
    + destruct (ReadString delim s) as [l0 r0| |] eqn:E0; simpl in H;
        try discriminate.
      inversion H; subst. destruct (IH _ _ eq_refl) as (l & -> & -> & Hl).
      exists (c :: l). repeat split; auto.
      apply not_elem_of_cons. split; auto.
      intros ->. rewrite Ascii.eqb_refl in E. discriminate.
Qed.

Lemma ReadString_app delim l rest :
  delim ∉ l -> ReadString delim (l ++ delim :: rest) = Ok (l ++ [delim]) rest.
Proof.
  induction l as [|c l IH]; intros Hl; simpl.
  - now rewrite Ascii.eqb_refl.
  - apply not_elem_of_cons in Hl as [Hc Hl].
    destruct (Ascii.eqb c delim) eqn:E.
    + apply Ascii.eqb_eq in E. congruence.
    + now rewrite IH.
Qed.

Lemma readLine_Ok s line rest :
  readLine s = Ok line rest -> s = line ++ CRLF ++ rest /\ LF ∉ line.
Proof.
  unfold readLine. intros H.
  destruct (ReadString LF s) as [l0 r0| |] eqn:E; simpl in H; try discriminate.
  apply ReadString_Ok in E as (l & -> & -> & Hl).
  destruct (decide (l = [])) as [->|Hne]; [discriminate|].
  destruct (exists_last Hne) as (l' & c & ->). cbn [bind] in H.
  rewrite <- app_assoc in H. cbn [app] in H.
  rewrite length_app in H. cbn [length] in H.
  replace (length l' + 2 - 2) with (length l') in H by lia.
  rewrite nth_middle in H.
  destruct (Nat.ltb_spec (length l' + 2) 2) as [?|_]; [lia|].
  destruct (Ascii.eqb c CR) eqn:Ec; cbn [orb negb] in H; [|discriminate].
  apply Ascii.eqb_eq in Ec. subst c.
  rewrite take_app_length in H. inversion H; subst.
  rewrite <- !app_assoc. split; auto.
  intros Hin. apply Hl. apply elem_of_app. now left.
Qed.

Lemma readLine_app line rest :
  LF ∉ line -> readLine (line ++ CRLF ++ rest) = Ok line rest.
Proof.
  intros Hl. unfold readLine, CRLF.
  replace (line ++ [CR; LF] ++ rest) with ((line ++ [CR]) ++ LF :: rest)
    by now rewrite <- app_assoc.
  rewrite ReadString_app.
  - cbn [bind]. rewrite <- app_assoc. cbn [app].
    rewrite length_app. cbn [length].
    replace (length line + 2 - 2) with (length line) by lia.
    rewrite nth_middle, Ascii.eqb_refl, take_app_length.
    destruct (Nat.ltb_spec (length line + 2) 2) as [?|_]; [lia|]. reflexivity.
  - intros [H|H]%elem_of_app; [auto|].
    apply list_elem_of_singleton in H. discriminate.
Qed.

Lemma readInteger_Ok s i rest :
  readInteger s = Ok i rest ->
  exists line,
    s = line ++ CRLF ++ rest /\ (LF ∉ line) /\ ParseInt line = inl i.
Proof.
  unfold readInteger. intros H.
  destruct (readLine s) as [line r| |] eqn:E; simpl in H; try discriminate.
  destruct (ParseInt line) eqn:EP; inversion H; subst.
  apply readLine_Ok in E as [-> Hl]. eauto.
Qed.

Lemma readInteger_app line i rest :
  LF ∉ line -> ParseInt line = inl i ->
  readInteger (line ++ CRLF ++ rest) = Ok i rest.
Proof.
  intros Hl HP. unfold readInteger. rewrite readLine_app by auto.
  simpl. now rewrite HP.
Qed.

(** ** [%d] and [strconv.ParseInt] *)

Lemma digit_of_digit_char d : (0 <= d < 10)%Z -> digit_of (digit_char d) = Some d.
Proof.
  intros H.
  assert (d = 0 \/ d = 1 \/ d = 2 \/ d = 3 \/ d = 4 \/ d = 5 \/ d = 6
          \/ d = 7 \/ d = 8 \/ d = 9)%Z as Hd by lia.
  repeat (destruct Hd as [->|Hd]; [reflexivity|]). now subst.
Qed.

Lemma is_digit_not c : is_digit c -> c <> LF /\ c <> "-"%char /\ c <> "+"%char.
Proof.
  intros [d Hd]. repeat split; intros ->; vm_compute in Hd; discriminate.
Qed.

Lemma fmt_digits_is_digit fuel : forall n acc,
  (0 <= n)%Z -> Forall is_digit acc -> Forall is_digit (fmt_digits fuel n acc).
Proof.
  induction fuel as [|fuel IH]; intros n acc Hn Hacc; simpl; [assumption|].
  destruct (Z.ltb_spec n 10).
  - constructor; [|assumption]. eexists. apply digit_of_digit_char. lia.
  - apply IH; [apply Z.div_pos; lia|]. constructor; [|assumption].
    eexists. apply digit_of_digit_char. apply Z.mod_pos_bound. lia.
Qed.

Lemma fmt_digits_cons fuel n acc :
  exists c l, fmt_digits (S fuel) n acc = c :: l.
Proof.
  revert n acc. induction fuel as [|fuel IH]; intros n acc.
  - simpl. destruct (n <? 10)%Z; eauto.
  - change (fmt_digits (S (S fuel)) n acc)
      with (if (n <? 10)%Z then digit_char n :: acc
            else fmt_digits (S fuel) (n / 10) (digit_char (n mod 10) :: acc)).
    destruct (n <? 10)%Z; eauto.
Qed.

(** Reading back the digits of [n] continues the loop with [n]. *)
Lemma ParseUint_loop_fmt_digits fuel : forall n acc,
  (0 <= n < 10 * 2 ^ Z.of_nat fuel)%Z -> (n <= MaxUint64)%Z ->
  ParseUint_loop 0 (fmt_digits (S fuel) n acc) = ParseUint_loop n acc.
Proof.
  induction fuel as [|fuel IH]; intros n acc Hn Hmax.
  - cbn [fmt_digits]. change (2 ^ Z.of_nat 0)%Z with 1%Z in Hn.
    destruct (Z.ltb_spec n 10); [|lia].
    cbn [ParseUint_loop]. rewrite digit_of_digit_char by lia.
    destruct (Z.ltb_spec MaxUint64 (10 * 0 + n)); [lia|].
    f_equal.
  - change (fmt_digits (S (S fuel)) n acc)
      with (if (n <? 10)%Z then digit_char n :: acc
            else fmt_digits (S fuel) (n / 10) (digit_char (n mod 10) :: acc)).
    destruct (Z.ltb_spec n 10) as [Hlt|Hge].
    + cbn [ParseUint_loop]. rewrite digit_of_digit_char by lia.
      destruct (Z.ltb_spec MaxUint64 (10 * 0 + n)); [lia|].
      f_equal.
    + assert (0 <= n / 10 < 10 * 2 ^ Z.of_nat fuel)%Z as Hq.
      { split; [apply Z.div_pos; lia|].
        apply Z.div_lt_upper_bound; [lia|].
        rewrite Nat2Z.inj_succ, Z.pow_succ_r in Hn by lia. lia. }
      assert (n = 10 * (n / 10) + n mod 10)%Z as Hdm
        by (apply Z.div_mod; lia).
      pose proof (Z.mod_pos_bound n 10 ltac:(lia)) as Hr.
      rewrite IH by (auto; lia).
      cbn [ParseUint_loop]. rewrite digit_of_digit_char by assumption.
      destruct (Z.ltb_spec MaxUint64 (10 * (n / 10) + n mod 10)); [lia|].
      now rewrite <- Hdm.
Qed.

Lemma fmt_nat_is_digit n : (0 <= n)%Z -> Forall is_digit (fmt_nat n).
Proof. intros. apply fmt_digits_is_digit; auto. Qed.

Lemma ParseUint_fmt_nat n :
  (0 <= n <= MaxUint64)%Z -> ParseUint (fmt_nat n) = (n, None).
Proof.
  intros Hn. unfold ParseUint, fmt_nat.
  destruct (fmt_digits_cons (Z.to_nat (Z.log2 n)) n []) as (c & l & E).
  rewrite E, <- E. rewrite ParseUint_loop_fmt_digits; [reflexivity| |lia].
  split; [lia|]. rewrite Z2Nat.id by apply Z.log2_nonneg.
  destruct (Z.eq_dec n 0%Z) as [->|]; [reflexivity|].
  pose proof (Z.log2_spec n ltac:(lia)) as Hs.
  rewrite Z.pow_succ_r in Hs by apply Z.log2_nonneg. lia.
Qed.

(** What [%d] prints, [ParseInt] reads back. *)
Lemma ParseInt_fmt_d i :
  (MinInt64 <= i <= MaxInt64)%Z -> ParseInt (fmt_d i) = inl i.
Proof.
  unfold MinInt64, MaxInt64. intros Hi. unfold fmt_d.
  destruct (Z.ltb_spec i 0) as [Hneg|Hpos].
  - unfold ParseInt.
    change (Ascii.eqb "-" "-") with true. change (Ascii.eqb "-" "+") with false.
    cbn [orb]. rewrite ParseUint_fmt_nat by (unfold MaxUint64; lia).
    cbn [negb andb].
    destruct (Z.ltb_spec (2 ^ 63) (- i)); [lia|].
    f_equal. lia.
  - pose proof (fmt_nat_is_digit i Hpos) as Hd.
    assert (ParseUint (fmt_nat i) = (i, None)) as HP
      by (apply ParseUint_fmt_nat; unfold MaxUint64; lia).
    unfold ParseInt. destruct (fmt_nat i) as [|c l] eqn:E.
    { unfold fmt_nat in E.
      destruct (fmt_digits_cons (Z.to_nat (Z.log2 i)) i []) as (c & l & E').
      congruence. }
    apply Forall_cons in Hd as [Hc _].
    apply is_digit_not in Hc as (_ & Hm & Hp).
    destruct (Ascii.eqb_spec c "-"); [contradiction|].
    destruct (Ascii.eqb_spec c "+"); [contradiction|].
    cbn [orb]. rewrite HP. cbn [negb andb].
    destruct (Z.leb_spec (2 ^ 63) i); [lia|]. reflexivity.
Qed.

Lemma fmt_d_no_LF i : LF ∉ fmt_d i.
Proof.
  assert (forall n, (0 <= n)%Z -> LF ∉ fmt_nat n) as Hnat.
  { intros n Hn Hin. pose proof (fmt_nat_is_digit n Hn) as Hd.
    rewrite Forall_forall in Hd. apply Hd in Hin.
    now apply is_digit_not in Hin as [? _]. }
  unfold fmt_d. destruct (Z.ltb_spec i 0).
  - apply not_elem_of_cons. split; [discriminate|]. apply Hnat. lia.
  - now apply Hnat.
Qed.

(** A length line written with [%d] is read back by [readInteger]. *)
Lemma readInteger_fmt_d i rest :
  (MinInt64 <= i <= MaxInt64)%Z ->
  readInteger (fmt_d i ++ CRLF ++ rest) = Ok i rest.
Proof.
  intros Hi. apply readInteger_app; [apply fmt_d_no_LF|].
  now apply ParseInt_fmt_d.
Qed.

(** ** Fuel: more is the same, and [enough] is enough *)

Lemma readLine_shrinks s line rest :
  readLine s = Ok line rest -> length rest + 2 <= length s.
Proof.
  intros [-> _]%readLine_Ok. rewrite !length_app. simpl. lia.
Qed.

Lemma readInteger_shrinks s i rest :
  readInteger s = Ok i rest -> length rest + 2 <= length s.
Proof.
  intros (line & -> & _)%readInteger_Ok. rewrite !length_app. simpl. lia.
Qed.

Lemma ReadFull_shrinks n s buf rest :
  ReadFull n s = Ok buf rest -> length rest <= length s.
Proof.
  unfold ReadFull. destruct (Z.of_nat (length s) <? n)%Z.
  - destruct s; discriminate.
  - intros H. inversion H; subst. rewrite length_drop. lia.
Qed.

(** [make] allocates a slice of a length that is not negative and of a size
    up to [maxAlloc], and no other. *)
Lemma make_panics_false size len :
  make_panics size len = false <-> (0 <= len)%Z /\ (size * len <= maxAlloc)%Z.
Proof.
  unfold make_panics. rewrite orb_false_iff, !Z.ltb_ge. reflexivity.
Qed.

Lemma make_panics_true size len :
  make_panics size len = true <-> (len < 0)%Z \/ (maxAlloc < size * len)%Z.
Proof.
  unfold make_panics. rewrite orb_true_iff, !Z.ltb_lt. reflexivity.
Qed.

Lemma readBulkString_shrinks s b rest :
  readBulkString s = Ok b rest -> length rest + 2 <= length s.
Proof.
  unfold readBulkString. intros H.
  destruct (readInteger s) as [len r| |] eqn:E; cbn [bind] in H;
    try discriminate.
  apply readInteger_shrinks in E.
  destruct (len =? -1)%Z; [inversion H; subst; assumption|].
  destruct (make_panics byte_size (wrap64 (len + 2))); [discriminate|].
  destruct (ReadFull (wrap64 (len + 2)) r) as [buf r'| |] eqn:EF;
    cbn [bind] in H; try discriminate.
  apply ReadFull_shrinks in EF.
  destruct (HasSuffix buf CRLF); cbn [negb] in H; [|discriminate].
  unfold slice_to in H. destruct (_ || _); [discriminate|].
  inversion H; subst. lia.
Qed.

Lemma fuel_mono fuel :
  (forall s r, ReadObject_fuel fuel s = Some r ->
     forall fuel', fuel <= fuel' -> ReadObject_fuel fuel' s = Some r) /\
  (forall s r, readArray_fuel fuel s = Some r ->
     forall fuel', fuel <= fuel' -> readArray_fuel fuel' s = Some r) /\
  (forall todo s r, readArray_loop_fuel fuel todo s = Some r ->
     forall fuel', fuel <= fuel' -> readArray_loop_fuel fuel' todo s = Some r).
Proof.
  induction fuel as [|fuel (IHO & IHA & IHL)];
    [repeat split; intros; discriminate|].
  split; [|split].
  - intros s r H [|fuel'] Hle; [lia|]. cbn [ReadObject_fuel] in *.
    unfold ReadObject_body in *. destruct (ReadByte s) as [typ s1| |];
      cbn [obind] in *; try assumption.
    repeat (match goal with |- context [if ?b then _ else _] =>
              destruct b; [assumption|] end).
    repeat (match type of H with context [if ?b then _ else _] =>
              destruct b; [try assumption|] end); try assumption.
    apply IHA with (fuel' := fuel') in H; [assumption|lia].
  - intros s r H [|fuel'] Hle; [lia|]. cbn [readArray_fuel] in *.
    unfold readArray_body in *. destruct (readInteger s) as [len rest| |];
      cbn [obind] in *; try assumption.
    destruct (len =? -1)%Z; [assumption|].
    destruct (make_panics interface_size len); [assumption|].
    destruct (readArray_loop_fuel fuel len rest) as [o|] eqn:E;
      [|discriminate].
    now rewrite (IHL _ _ _ E fuel') by lia.
  - intros todo s r H [|fuel'] Hle; [lia|]. cbn [readArray_loop_fuel] in *.
    unfold readArray_loop_body in *.
    destruct (todo <=? 0)%Z; [assumption|].
    destruct (ReadObject_fuel fuel s) as [o|] eqn:E; [|discriminate].
    rewrite (IHO _ _ E fuel') by lia.
    destruct o as [x rest| |]; cbn [obind] in *; try assumption.
    destruct (readArray_loop_fuel fuel (todo - 1) rest) as [o|] eqn:E';
      [|discriminate].
    now rewrite (IHL _ _ _ E' fuel') by lia.
Qed.

Local Ltac leaf_shrinks H :=
  let E := fresh "E" in
  injection H as H;
  match type of H with context [bind ?m _] =>
    destruct m eqn:E; cbn [bind] in H; try discriminate
  end;
  injection H as <- <-;
  first [apply readLine_shrinks in E | apply readInteger_shrinks in E
        | apply readBulkString_shrinks in E];
  cbn [length]; lia.

(** A successful read leaves fewer bytes than it found. *)
Lemma fuel_shrinks fuel :
  (forall s x rest, ReadObject_fuel fuel s = Some (Ok x rest) ->
     length rest < length s) /\
  (forall s x rest, readArray_fuel fuel s = Some (Ok x rest) ->
     length rest < length s) /\
  (forall todo s xs rest, readArray_loop_fuel fuel todo s = Some (Ok xs rest) ->
     length rest <= length s).
Proof.
  induction fuel as [|fuel (IHO & IHA & IHL)];
    [repeat split; intros; discriminate|].
  split; [|split].
  - intros s x rest H. cbn [ReadObject_fuel] in H. unfold ReadObject_body in H.
    destruct s as [|typ s1]; [discriminate|]. cbn [ReadByte obind length] in H.
    destruct (Ascii.eqb typ SimpleString); [leaf_shrinks H|].
    destruct (Ascii.eqb typ Error); [leaf_shrinks H|].
    destruct (Ascii.eqb typ Integer); [leaf_shrinks H|].
    destruct (Ascii.eqb typ BulkString); [leaf_shrinks H|].
    destruct (Ascii.eqb typ Array); [|discriminate].
    apply IHA in H. cbn [length]. lia.
  - intros s x rest H. cbn [readArray_fuel] in H. unfold readArray_body in H.
    destruct (readInteger s) as [len r| |] eqn:E; cbn [obind] in H;
      try discriminate.
    apply readInteger_shrinks in E.
    destruct (len =? -1)%Z; [injection H as <- <-; lia|].
    destruct (make_panics interface_size len); [discriminate|].
    destruct (readArray_loop_fuel fuel len r) as [[xs r'| |]|] eqn:EL;
      cbn [obind] in H; try discriminate.
    injection H as <- <-. apply IHL in EL. lia.
  - intros todo s xs rest H. cbn [readArray_loop_fuel] in H.
    unfold readArray_loop_body in H.
    destruct (todo <=? 0)%Z; [injection H as <- <-; lia|].
    destruct (ReadObject_fuel fuel s) as [[x r| |]|] eqn:EO;
      cbn [obind] in H; try discriminate.
    destruct (readArray_loop_fuel fuel (todo - 1) r) as [[xs' r'| |]|] eqn:EL;
      cbn [obind] in H; try discriminate.
    injection H as <- <-. apply IHO in EO. apply IHL in EL. lia.
Qed.

Lemma fuel_total fuel :
  (forall s, 2 * length s + 1 <= fuel -> is_Some (ReadObject_fuel fuel s)) /\
  (forall s, 2 * length s + 1 <= fuel -> is_Some (readArray_fuel fuel s)) /\
  (forall todo s, 2 * length s + 2 <= fuel ->
     is_Some (readArray_loop_fuel fuel todo s)).
Proof.
  induction fuel as [|fuel (IHO & IHA & IHL)];
    [repeat split; intros; lia|].
  split; [|split].
  - intros s Hf. cbn [ReadObject_fuel]. unfold ReadObject_body.
    destruct s as [|typ s1]; [eexists; reflexivity|].
    cbn [ReadByte obind length] in *.
    repeat (match goal with |- context [if ?b then _ else _] =>
              destruct b; [eexists; reflexivity|] end).
    destruct (Ascii.eqb typ Array); [|eexists; reflexivity].
    apply IHA. lia.
  - intros s Hf. cbn [readArray_fuel]. unfold readArray_body.
    destruct (readInteger s) as [len r| |] eqn:E; cbn [obind];
      try (eexists; reflexivity).
    apply readInteger_shrinks in E.
    destruct (len =? -1)%Z; [eexists; reflexivity|].
    destruct (make_panics interface_size len); [eexists; reflexivity|].
    destruct (IHL len r ltac:(lia)) as [[xs r'| |] ->]; eexists; reflexivity.
  - intros todo s Hf. cbn [readArray_loop_fuel]. unfold readArray_loop_body.
    destruct (todo <=? 0)%Z; [eexists; reflexivity|].
    destruct (IHO s ltac:(lia)) as [[x r| |] EO]; rewrite EO; cbn [obind];
      try (eexists; reflexivity).
    apply (proj1 (fuel_shrinks fuel)) in EO.
    destruct (IHL (todo - 1)%Z r ltac:(lia)) as [[xs r'| |] ->];
      eexists; reflexivity.
Qed.

(** With enough fuel the result does not depend on the fuel. *)
Lemma ReadObject_fuel_enough fuel s :
  2 * length s + 1 <= fuel -> ReadObject_fuel fuel s = ReadObject s.
Proof.
  intros Hf. unfold ReadObject, enough.
  destruct (proj1 (fuel_total (2 * length s + 1)) s (le_n _)) as [r Hr].
  rewrite (proj1 (fuel_mono _) _ _ Hr fuel) by lia.
  now rewrite (proj1 (fuel_mono _) _ _ Hr (2 * length s + 2)) by lia.
Qed.

Lemma readArray_fuel_enough fuel s :
  2 * length s + 1 <= fuel -> readArray_fuel fuel s = readArray s.
Proof.
  intros Hf. unfold readArray, enough.
  destruct (proj1 (proj2 (fuel_total (2 * length s + 1))) s (le_n _))
    as [r Hr].
  rewrite (proj1 (proj2 (fuel_mono _)) _ _ Hr fuel) by lia.
  now rewrite (proj1 (proj2 (fuel_mono _)) _ _ Hr (2 * length s + 2)) by lia.
Qed.

Lemma readArray_loop_fuel_enough fuel todo s :
  2 * length s + 2 <= fuel ->
  readArray_loop_fuel fuel todo s = readArray_loop todo s.
Proof.
  intros Hf. unfold readArray_loop, enough.
  destruct (proj2 (proj2 (fuel_total (2 * length s + 2))) todo s (le_n _))
    as [r Hr].
  now rewrite (proj2 (proj2 (fuel_mono _)) _ _ _ Hr fuel) by lia.
Qed.

(** [ReadObject] always returns: with a value, an error or a panic. *)
Lemma ReadObject_total s : is_Some (ReadObject s).
Proof. apply fuel_total. unfold enough. lia. Qed.

Lemma ReadObject_shrinks s x rest :
  ReadObject s = Some (Ok x rest) -> length rest < length s.
Proof. apply fuel_shrinks. Qed.

Lemma readArray_loop_shrinks todo s xs rest :
  readArray_loop todo s = Some (Ok xs rest) -> length rest <= length s.
Proof. apply fuel_shrinks. Qed.

(** The three functions satisfy the equations of the source. *)
Lemma ReadObject_eq s : ReadObject s = ReadObject_body readArray s.
Proof.
  unfold ReadObject, enough.
  replace (2 * length s + 2) with (S (2 * length s + 1)) by lia.
  cbn [ReadObject_fuel]. unfold ReadObject_body.
  destruct s as [|typ s1]; [reflexivity|]. cbn [ReadByte obind length].
  rewrite readArray_fuel_enough by lia. reflexivity.
Qed.

Lemma readArray_eq s : readArray s = readArray_body readArray_loop s.
Proof.
  unfold readArray, enough.
  replace (2 * length s + 2) with (S (2 * length s + 1)) by lia.
  cbn [readArray_fuel]. unfold readArray_body.
  destruct (readInteger s) as [len r| |] eqn:E; cbn [obind]; try reflexivity.
  apply readInteger_shrinks in E.
  destruct (len =? -1)%Z; [reflexivity|].
  destruct (make_panics interface_size len); [reflexivity|].
  now rewrite readArray_loop_fuel_enough by lia.
Qed.

Lemma readArray_loop_eq todo s :
  readArray_loop todo s
  = readArray_loop_body ReadObject readArray_loop todo s.
Proof.
  unfold readArray_loop at 1. unfold enough.
  replace (2 * length s + 2) with (S (2 * length s + 1)) by lia.
  cbn [readArray_loop_fuel]. unfold readArray_loop_body.
  destruct (todo <=? 0)%Z; [reflexivity|].
  rewrite ReadObject_fuel_enough by lia.
  destruct (ReadObject s) as [[x r| |]|] eqn:EO; cbn [obind]; try reflexivity.
  apply ReadObject_shrinks in EO.
  now rewrite readArray_loop_fuel_enough by lia.
Qed.

(** ** The writer and the encoding of trees *)

Lemma Value_nested_ind (P : Value -> Prop) :
  (forall s, P (VSimpleString s)) ->
  (forall msg, P (VError msg)) ->
  (forall i, P (VInteger i)) ->
  (forall s, P (VBulkString s)) ->
  P VNullArray ->
  (forall elems, Forall P elems -> P (VArray elems)) ->
  forall v, P v.
Proof.
  intros HS HE HI HB HN HA. fix IH 1.
  intros [s|msg|i|s| |elems];
    [apply HS|apply HE|apply HI|apply HB|apply HN|].
  apply HA. induction elems as [|v elems IHelems]; constructor.
  - apply IH.
  - apply IHelems.
Qed.

Lemma encode_each_wire elems :
  Forall (fun v => forall w,
            encode v w = ({| sink := sink w ++ wire v |}, None)) elems ->
  forall w,
    (fix each (vs : list Value) (w : Writer) : Writer * option error :=
       match vs with
       | [] => (w, None)
       | v :: vs' => and_then (encode v w) (each vs')
       end) elems w
    = ({| sink := sink w ++ concat (map wire elems) |}, None).
Proof.
  induction 1 as [|v elems Hv _ IH]; intros w.
  - cbn [map concat]. rewrite app_nil_r. now destruct w.
  - rewrite Hv. cbn [and_then]. rewrite IH. cbn [sink map concat].
    now rewrite <- app_assoc.
Qed.

Lemma encode_wire v : forall w,
  encode v w = ({| sink := sink w ++ wire v |}, None).
Proof.
  induction v as [s|msg|i|s| |elems IH] using Value_nested_ind; intros w;
    try reflexivity.
  - cbn [encode wire]. unfold WriteBulkString.
    destruct (bool_decide (s = [])); reflexivity.
  - cbn [encode wire]. unfold WriteArray.
    destruct (Z.ltb_spec (Z.of_nat (length elems)) 0); [lia|].
    unfold writeString. cbn [and_then].
    rewrite (encode_each_wire elems IH). cbn [sink].
    now rewrite <- !app_assoc.
Qed.

Lemma encoded_wire v : encoded v = wire v.
Proof. unfold encoded. now rewrite encode_wire. Qed.

(** ** Bulk strings *)

(** A length with which [make] allocates the [length+2] bytes: the payload,
    then CRLF, or one of the two framing failures. *)
Lemma readBulkString_framed s n rest :
  readInteger s = Ok n rest -> (0 <= n)%Z -> (n + 2 <= maxAlloc)%Z ->
  readBulkString s =
    if (Z.of_nat (length rest) <? n + 2)%Z then
      match rest with
      | [] => Fail EOF
      | _ => Fail ErrUnexpectedEOF
      end
    else if bool_decide (take 2 (drop (Z.to_nat n) rest) = CRLF) then
      Ok (take (Z.to_nat n) rest) (drop (Z.to_nat n + 2) rest)
    else Fail ErrInvalidFormat.
Proof.
  intros H Hn Hmax. unfold readBulkString. rewrite H. cbn [bind].
  destruct (Z.eqb_spec n (-1)); [lia|].
  assert (wrap64 (n + 2) = n + 2)%Z as ->.
  { unfold wrap64, maxAlloc in *. rewrite Z.mod_small by lia. lia. }
  rewrite (proj2 (make_panics_false _ _)) by (unfold byte_size; lia).
  unfold ReadFull. destruct (Z.ltb_spec (Z.of_nat (length rest)) (n + 2)).
  { destruct rest; reflexivity. }
  cbn [bind]. replace (Z.to_nat (n + 2)) with (Z.to_nat n + 2) by lia.
  unfold HasSuffix. rewrite length_take_le by lia. cbn [length CRLF].
  destruct (Nat.leb_spec 2 (Z.to_nat n + 2)); [|lia]. cbn [andb].
  replace (Z.to_nat n + 2 - 2) with (Z.to_nat n) by lia.
  rewrite <- take_drop_commute.
  destruct (bool_decide (take 2 (drop (Z.to_nat n) rest) = CRLF));
    cbn [negb]; [|reflexivity].
  unfold slice_to. rewrite length_take_le by lia.
  destruct (Z.ltb_spec n 0); [lia|].
  destruct (Z.ltb_spec (Z.of_nat (Z.to_nat n + 2)) n); [lia|]. cbn [orb].
  rewrite take_take. now replace (Z.to_nat n `min` (Z.to_nat n + 2))
    with (Z.to_nat n) by lia.
Qed.

(** A payload of [n] bytes followed by CRLF is returned whole, and the
    reader stops right after the CRLF. *)
Lemma readBulkString_payload s n payload rest :
  readInteger s = Ok n (payload ++ CRLF ++ rest) ->
  Z.of_nat (length payload) = n -> (n + 2 <= maxAlloc)%Z ->
  readBulkString s = Ok payload rest.
Proof.
  intros H Hlen Hmax.
  rewrite (readBulkString_framed _ _ _ H) by lia.
  rewrite !length_app. cbn [length CRLF].
  destruct (Z.ltb_spec (Z.of_nat (length payload + (2 + length rest))) (n + 2));
    [lia|].
  replace (Z.to_nat n) with (length payload) by lia.
  rewrite drop_app_length, take_app_length. cbn [app take].
  rewrite bool_decide_eq_true_2 by reflexivity.
  f_equal. replace (length payload + 2) with (length (payload ++ [CR; LF]))
    by (rewrite length_app; reflexivity).
  change (payload ++ CR :: LF :: rest) with (payload ++ [CR; LF] ++ rest).
  now rewrite app_assoc, drop_app_length.
Qed.

(** ** Arrays *)

Lemma ReadObject_Array s : ReadObject (Array :: s) = readArray s.
Proof. now rewrite ReadObject_eq. Qed.

Lemma readArray_loop_reads s xs s' :
  reads s xs s' -> readArray_loop (Z.of_nat (length xs)) s = Some (Ok xs s').
Proof.
  induction 1 as [s|s x s' xs s'' Hx _ IH]; rewrite readArray_loop_eq;
    unfold readArray_loop_body.
  - reflexivity.
  - destruct (Z.leb_spec (Z.of_nat (length (x :: xs))) 0) as [Hle|_];
      [cbn [length] in Hle; lia|].
    rewrite Hx. cbn [obind].
    replace (Z.of_nat (length (x :: xs)) - 1)%Z with (Z.of_nat (length xs))
      by (cbn [length]; lia).
    now rewrite IH.
Qed.

Lemma readArray_loop_fails s xs s' e :
  reads s xs s' -> ReadObject s' = Some (Fail e) ->
  forall n, (Z.of_nat (length xs) < n)%Z -> readArray_loop n s = Some (Fail e).
Proof.
  induction 1 as [s|s x s' xs s'' Hx _ IH]; intros He n Hn;
    rewrite readArray_loop_eq; unfold readArray_loop_body;
    cbn [length] in Hn; (destruct (Z.leb_spec n 0); [lia|]).
  - now rewrite He.
  - rewrite Hx. cbn [obind]. now rewrite IH by (auto; lia).
Qed.

Lemma readArray_loop_Ok xs : forall n s s',
  (0 <= n)%Z -> readArray_loop n s = Some (Ok xs s') ->
  Z.of_nat (length xs) = n /\ reads s xs s'.
Proof.
  induction xs as [|x xs IH]; intros n s s' Hn H;
    rewrite readArray_loop_eq in H; unfold readArray_loop_body in H;
    destruct (Z.leb_spec n 0) as [Hle|Hgt].
  - injection H as <-. split; [cbn [length]; lia|constructor].
  - destruct (ReadObject s) as [[y r| |]|]; cbn [obind] in H;
      try discriminate.
    destruct (readArray_loop (n - 1) r) as [[ys r'| |]|]; cbn [obind] in H;
      discriminate.
  - discriminate.
  - destruct (ReadObject s) as [[y r| |]|] eqn:Ey; cbn [obind] in H;
      try discriminate.
    destruct (readArray_loop (n - 1) r) as [[ys r'| |]|] eqn:Eys;
      cbn [obind] in H; try discriminate.
    injection H as -> -> ->.
    apply IH in Eys as [Hlen Hreads]; [|lia].
    split; [cbn [length]; lia|]. econstructor; eassumption.
Qed.

(** ** One equation for each type byte *)

Lemma ReadObject_SimpleString s :
  ReadObject (SimpleString :: s)
  = Some (do (line, rest) <- readLine s; Ok (OString line) rest).
Proof. now rewrite ReadObject_eq. Qed.

Lemma ReadObject_Error s :
  ReadObject (Error :: s)
  = Some (do (msg, rest) <- readLine s; Ok (OError msg) rest).
Proof. now rewrite ReadObject_eq. Qed.

Lemma ReadObject_Integer s :
  ReadObject (Integer :: s)
  = Some (do (i, rest) <- readInteger s; Ok (OInt64 i) rest).
Proof. now rewrite ReadObject_eq. Qed.

Lemma ReadObject_BulkString s :
  ReadObject (BulkString :: s)
  = Some (do (b, rest) <- readBulkString s; Ok (OString b) rest).
Proof. now rewrite ReadObject_eq. Qed.

(** ** Round trip *)

Lemma wire_elems_reads elems rest :
  Forall (fun v => forall rest,
            ReadObject (wire v ++ rest) = Some (Ok (goValue v) rest)) elems ->
  reads (concat (map wire elems) ++ rest) (map goValue elems) rest.
Proof.
  induction 1 as [|v elems Hv _ IH]; cbn [map concat].
  - constructor.
  - econstructor; [|exact IH]. rewrite <- app_assoc. apply Hv.
Qed.

Lemma ReadObject_wire v :
  wire_safe v = true ->
  forall rest, ReadObject (wire v ++ rest) = Some (Ok (goValue v) rest).
Proof.
  induction v as [s|msg|i|s| |elems IH] using Value_nested_ind;
    cbn [wire_safe wire goValue]; intros Hsafe rest.
  - apply bool_decide_eq_true_1 in Hsafe.
    rewrite <- !app_assoc. cbn [app].
    now rewrite ReadObject_SimpleString, readLine_app.
  - apply bool_decide_eq_true_1 in Hsafe.
    rewrite <- !app_assoc. cbn [app].
    now rewrite ReadObject_Error, readLine_app.
  - apply andb_true_iff in Hsafe as [Hlo%Z.leb_le Hhi%Z.leb_le].
    rewrite <- !app_assoc. cbn [app].
    now rewrite ReadObject_Integer, readInteger_fmt_d.
  - apply Z.leb_le in Hsafe. destruct (bool_decide_reflect (s = [])) as [->|Hs].
    + rewrite <- !app_assoc. cbn [app]. rewrite ReadObject_BulkString.
      unfold readBulkString.
      change (B "-1") with (fmt_d (-1)).
      now rewrite readInteger_fmt_d.
    + rewrite <- !app_assoc. cbn [app]. rewrite ReadObject_BulkString.
      rewrite (readBulkString_payload _ (Z.of_nat (length s)) s rest);
        [reflexivity| |reflexivity|assumption].
      apply readInteger_fmt_d. unfold MinInt64, MaxInt64, maxAlloc in *. lia.
  - rewrite <- !app_assoc. cbn [app]. rewrite ReadObject_Array, readArray_eq.
    unfold readArray_body. change (B "-1") with (fmt_d (-1)).
    now rewrite readInteger_fmt_d.
  - apply andb_true_iff in Hsafe as [Hlen%Z.leb_le Hall].
    rewrite <- !app_assoc. cbn [app]. rewrite ReadObject_Array, readArray_eq.
    unfold readArray_body.
    rewrite readInteger_fmt_d
      by (unfold MinInt64, MaxInt64, maxAlloc, interface_size in *; lia).
    cbn [obind].
    destruct (Z.eqb_spec (Z.of_nat (length elems)) (-1)); [lia|].
    rewrite (proj2 (make_panics_false _ _)) by (split; [lia|assumption]).
    assert (reads (concat (map wire elems) ++ rest) (map goValue elems) rest)
      as Hreads.
    { apply wire_elems_reads. rewrite forallb_forall in Hall.
      rewrite Forall_forall in IH |- *. intros v Hv.
      apply IH; [assumption|]. apply Hall. now apply list_elem_of_In. }
    apply readArray_loop_reads in Hreads. rewrite length_map in Hreads.
    now rewrite Hreads.
Qed.

(** C1 (as amended). For every value tree whose simple strings and error
    messages contain no line feed, whose integers fit [int64] and whose
    strings and arrays have a size that [make] allocates, decoding the bytes
    that encoding the tree produces succeeds,
    consumes exactly these bytes, and returns the Go value of the tree: a
    simple string and a bulk string alike as a string, an empty bulk string
    as the empty string, which is also what the null encoding decodes to. *)
Theorem roundtrip_line_safe v rest :
  wire_safe v = true ->
  ReadObject (encoded v ++ rest) = Some (Ok (goValue v) rest).
Proof. intros Hsafe. rewrite encoded_wire. now apply ReadObject_wire. Qed.

Lemma roundtrip_line_safe_witness :
  wire_safe example_tree = true /\
  ReadObject (encoded example_tree ++ B "+next")
  = Some (Ok (goValue example_tree) (B "+next")).
Proof.
  split; [reflexivity|]. apply (roundtrip_line_safe example_tree (B "+next")).
  reflexivity.
Defined.

(** C1 (as stated) fails: decoding what encoding wrote does not give the
    tree back for every tree. A simple string with a line feed in it does
    not decode at all, one with CRLF in it decodes to its first line only,
    and a simple string and a bulk string with the same text decode to the
    same value, so that what is read back cannot be the tree written in
    both cases. *)
Lemma encode_decode_not_identity :
  ~ (forall v, ReadObject (encoded v) = Some (Ok (goValue v) [])) /\
  ReadObject (encoded (VSimpleString (B "a" ++ [LF] ++ B "b")))
    = Some (Fail ErrInvalidFormat) /\
  ReadObject (encoded (VSimpleString (B "a" ++ CRLF ++ B "b")))
    = Some (Ok (OString (B "a")) (B "b" ++ CRLF)) /\
  ReadObject (encoded (VSimpleString (B "a")))
    = ReadObject (encoded (VBulkString (B "a"))) /\
  VSimpleString (B "a") <> VBulkString (B "a").
Proof.
  split.
  - intros H. specialize (H (VSimpleString (B "a" ++ [LF] ++ B "b"))).
    discriminate H.
  - repeat split; try reflexivity. discriminate.
Qed.

(** C2 at the failing input: a declared length of [MaxInt64] is not
    negative, [length+2] wraps around to a negative number, and [make]
    panics where a truncated-input error is due. *)
Theorem readBulkString_length_overflow :
  readInteger (B "9223372036854775807" ++ CRLF) = Ok MaxInt64 [] /\
  readBulkString (B "9223372036854775807" ++ CRLF)
    = Panic MakesliceLenOutOfRange /\
  ReadObject (B "$9223372036854775807" ++ CRLF)
    = Some (Panic MakesliceLenOutOfRange).
Proof. repeat split; reflexivity. Qed.

(** With a declared length for which [make] allocates the [n+2] bytes, the
    three cases of a bulk string are as expected: the reader fails with a
    truncated-input error when fewer than [n+2] bytes are there, with
    [ErrInvalidFormat] when the two bytes after the payload are not CRLF,
    and otherwise returns the [n] bytes of the payload and stops after the
    CRLF. *)
Lemma readBulkString_below_limit s n rest :
  readInteger s = Ok n rest -> (0 <= n)%Z -> (n + 2 <= maxAlloc)%Z ->
  ((Z.of_nat (length rest) < n + 2)%Z ->
     exists e, readBulkString s = Fail e /\ truncated e) /\
  ((n + 2 <= Z.of_nat (length rest))%Z ->
     take 2 (drop (Z.to_nat n) rest) <> CRLF ->
     readBulkString s = Fail ErrInvalidFormat) /\
  ((n + 2 <= Z.of_nat (length rest))%Z ->
     take 2 (drop (Z.to_nat n) rest) = CRLF ->
     readBulkString s
     = Ok (take (Z.to_nat n) rest) (drop (Z.to_nat n + 2) rest)).
Proof.
  intros H Hn Hmax. rewrite (readBulkString_framed _ _ _ H Hn Hmax).
  repeat split.
  - intros Hlt. destruct (Z.ltb_spec (Z.of_nat (length rest)) (n + 2)); [|lia].
    destruct rest; eexists; (split; [reflexivity|]); [left|right]; reflexivity.
  - intros Hge Hcrlf.
    destruct (Z.ltb_spec (Z.of_nat (length rest)) (n + 2)); [lia|].
    now rewrite bool_decide_eq_false_2.
  - intros Hge Hcrlf.
    destruct (Z.ltb_spec (Z.of_nat (length rest)) (n + 2)); [lia|].
    now rewrite bool_decide_eq_true_2.
Qed.

(** The limit of [make] on the wire: the first declared lengths of a bulk
    string and of an array that are refused, well below the overflow of
    [length+2]. *)
Lemma make_limit_on_the_wire :
  ReadObject (B "$281474976710655" ++ CRLF)
    = Some (Panic MakesliceLenOutOfRange) /\
  ReadObject (B "$281474976710656" ++ CRLF)
    = Some (Panic MakesliceLenOutOfRange) /\
  ReadObject (B "$9223372036854775805" ++ CRLF)
    = Some (Panic MakesliceLenOutOfRange) /\
  ReadObject (B "*17592186044417" ++ CRLF)
    = Some (Panic MakesliceLenOutOfRange).
Proof. repeat split; reflexivity. Qed.

(** A declared length above the limit of [make] panics as a negative one
    does, before any byte of the payload is read. *)
Lemma readBulkString_beyond_limit s n rest :
  readInteger s = Ok n rest -> (maxAlloc < n + 2)%Z -> (n <= MaxInt64)%Z ->
  readBulkString s = Panic MakesliceLenOutOfRange.
Proof.
  intros H Hn Hmax. unfold readBulkString. rewrite H. cbn [bind].
  destruct (Z.eqb_spec n (-1)); [unfold maxAlloc in Hn; lia|].
  rewrite (proj2 (make_panics_true _ _)); [reflexivity|].
  unfold byte_size, maxAlloc, MaxInt64, wrap64 in *.
  destruct (Z.le_gt_cases (n + 2) (2 ^ 63 - 1)).
  - right. rewrite Z.mod_small by lia. lia.
  - left. replace (n + 2 + 2 ^ 63)%Z with (n + 2 - 2 ^ 63 + 1 * 2 ^ 64)%Z
      by lia.
    rewrite Z.mod_add by lia. rewrite Z.mod_small by lia. lia.
Qed.

(** C3 at the failing input: the declared length [MaxInt64] is not negative
    and no element follows it, so that decoding the first element fails
    with [io.EOF]; [readArray] does not return this failure: [make] panics
    before any element is read. *)
Theorem readArray_length_beyond_limit :
  readInteger (B "9223372036854775807" ++ CRLF) = Ok MaxInt64 [] /\
  ReadObject [] = Some (Fail EOF) /\
  readArray (B "9223372036854775807" ++ CRLF)
    = Some (Panic MakesliceLenOutOfRange) /\
  ReadObject (B "*9223372036854775807" ++ CRLF)
    = Some (Panic MakesliceLenOutOfRange).
Proof. repeat split; reflexivity. Qed.

(** So does every declared length above the limit of [make], whatever
    follows it. *)
Lemma readArray_beyond_limit s n rest :
  readInteger s = Ok n rest -> (maxAlloc < interface_size * n)%Z ->
  readArray s = Some (Panic MakesliceLenOutOfRange).
Proof.
  intros H Hn. rewrite readArray_eq. unfold readArray_body. rewrite H.
  cbn [obind].
  destruct (Z.eqb_spec n (-1)); [unfold maxAlloc, interface_size in Hn; lia|].
  now rewrite (proj2 (make_panics_true _ _)) by (right; assumption).
Qed.

(** With a declared length [n >= 0] for which [make] allocates the array,
    [readArray] reads [n] objects one after the other and returns them in
    this order; when the object after the first [k < n] fails to decode,
    [readArray] returns that error and no array; and an array it returns is
    made of exactly [n] objects read in order. *)
Lemma readArray_below_limit s n rest xs s' :
  readInteger s = Ok n rest -> (0 <= n)%Z ->
  (interface_size * n <= maxAlloc)%Z -> reads rest xs s' ->
  (Z.of_nat (length xs) = n -> readArray s = Some (Ok (OSlice xs) s')) /\
  ((Z.of_nat (length xs) < n)%Z -> forall e,
     ReadObject s' = Some (Fail e) -> readArray s = Some (Fail e)) /\
  (forall v r, readArray s = Some (Ok v r) ->
     exists ys, v = OSlice ys /\ Z.of_nat (length ys) = n /\ reads rest ys r) /\
  ReadObject (Array :: s) = readArray s.
Proof.
  intros H Hn Hmax Hreads.
  assert (readArray s
          = obind (readArray_loop n rest) (fun array rest' =>
              Some (Ok (OSlice array) rest'))) as Heq.
  { rewrite readArray_eq. unfold readArray_body. rewrite H. cbn [obind].
    destruct (Z.eqb_spec n (-1)); [lia|].
    now rewrite (proj2 (make_panics_false _ _)) by (split; assumption). }
  repeat split.
  - intros <-. rewrite Heq. now rewrite (readArray_loop_reads _ _ _ Hreads).
  - intros Hlt e He. rewrite Heq.
    now rewrite (readArray_loop_fails _ _ _ _ Hreads He n Hlt).
  - intros v r Hv. rewrite Heq in Hv.
    destruct (readArray_loop n rest) as [[ys r'| |]|] eqn:E;
      cbn [obind] in Hv; try discriminate.
    injection Hv as <- <-.
    apply readArray_loop_Ok in E as [Hlen Hys]; [|assumption]. eauto.
  - apply ReadObject_Array.
Qed.

Lemma readArray_below_limit_example :
  readArray (B "2" ++ CRLF ++ B ":1" ++ CRLF ++ B "+OK" ++ CRLF ++ B ":3")
    = Some (Ok (OSlice [OInt64 1; OString (B "OK")]) (B ":3")) /\
  readArray (B "3" ++ CRLF ++ B ":1" ++ CRLF ++ B "+OK" ++ CRLF ++ B ":3")
    = Some (Fail EOF).
Proof.
  assert (reads (B ":1" ++ CRLF ++ B "+OK" ++ CRLF ++ B ":3")
            [OInt64 1; OString (B "OK")] (B ":3")) as Hreads.
  { econstructor; [reflexivity|]. econstructor; [reflexivity|]. constructor. }
  split.
  - apply (readArray_below_limit
             (B "2" ++ CRLF ++ B ":1" ++ CRLF ++ B "+OK" ++ CRLF ++ B ":3") 2
             (B ":1" ++ CRLF ++ B "+OK" ++ CRLF ++ B ":3")
             [OInt64 1; OString (B "OK")] (B ":3")); auto;
      unfold interface_size, maxAlloc; lia.
  - apply (readArray_below_limit
             (B "3" ++ CRLF ++ B ":1" ++ CRLF ++ B "+OK" ++ CRLF ++ B ":3") 3
             (B ":1" ++ CRLF ++ B "+OK" ++ CRLF ++ B ":3")
             [OInt64 1; OString (B "OK")] (B ":3")); auto;
      cbn [length]; unfold interface_size, maxAlloc; lia.
Qed.

(** ** What [%d] prints is the decimal numeral *)

Lemma digit_char_code d :
  (0 <= d < 10)%Z -> (Z.of_N (N_of_ascii (digit_char d)) - 48 = d)%Z.
Proof.
  intros H.
  assert (d = 0 \/ d = 1 \/ d = 2 \/ d = 3 \/ d = 4 \/ d = 5 \/ d = 6
          \/ d = 7 \/ d = 8 \/ d = 9)%Z as Hd by lia.
  repeat (destruct Hd as [->|Hd]; [reflexivity|]). now subst.
Qed.

Lemma decimal_value_fmt_digits fuel : forall n acc,
  (0 <= n < 10 * 2 ^ Z.of_nat fuel)%Z ->
  fold_left (fun a c => (10 * a + (Z.of_N (N_of_ascii c) - 48))%Z)
    (fmt_digits (S fuel) n acc) 0%Z
  = fold_left (fun a c => (10 * a + (Z.of_N (N_of_ascii c) - 48))%Z) acc n.
Proof.
  induction fuel as [|fuel IH]; intros n acc Hn.
  - cbn [fmt_digits]. change (2 ^ Z.of_nat 0)%Z with 1%Z in Hn.
    destruct (Z.ltb_spec n 10); [|lia].
    cbn [fold_left]. rewrite digit_char_code by lia. f_equal.
  - change (fmt_digits (S (S fuel)) n acc)
      with (if (n <? 10)%Z then digit_char n :: acc
            else fmt_digits (S fuel) (n / 10) (digit_char (n mod 10) :: acc)).
    destruct (Z.ltb_spec n 10) as [Hlt|Hge].
    + cbn [fold_left]. rewrite digit_char_code by lia. f_equal.
    + assert (0 <= n / 10 < 10 * 2 ^ Z.of_nat fuel)%Z as Hq.
      { split; [apply Z.div_pos; lia|].
        apply Z.div_lt_upper_bound; [lia|].
        rewrite Nat2Z.inj_succ, Z.pow_succ_r in Hn by lia. lia. }
      rewrite IH by assumption. cbn [fold_left].
      rewrite digit_char_code by (apply Z.mod_pos_bound; lia).
      f_equal. symmetry. apply Z.div_mod. lia.
Qed.

Lemma fmt_digits_head fuel : forall n acc,
  (0 < n < 10 * 2 ^ Z.of_nat fuel)%Z ->
  exists c l, fmt_digits (S fuel) n acc = c :: l /\ c <> "0"%char.
Proof.
  induction fuel as [|fuel IH]; intros n acc Hn.
  - cbn [fmt_digits]. change (2 ^ Z.of_nat 0)%Z with 1%Z in Hn.
    destruct (Z.ltb_spec n 10); [|lia].
    exists (digit_char n), acc. split; [reflexivity|]. intros Hc.
    pose proof (digit_char_code n ltac:(lia)) as Hcode.
    rewrite Hc in Hcode. vm_compute in Hcode. lia.
  - change (fmt_digits (S (S fuel)) n acc)
      with (if (n <? 10)%Z then digit_char n :: acc
            else fmt_digits (S fuel) (n / 10) (digit_char (n mod 10) :: acc)).
    destruct (Z.ltb_spec n 10) as [Hlt|Hge].
    + exists (digit_char n), acc. split; [reflexivity|]. intros Hc.
      pose proof (digit_char_code n ltac:(lia)) as Hcode.
      rewrite Hc in Hcode. vm_compute in Hcode. lia.
    + apply IH. split.
      * apply Z.div_str_pos. lia.
      * apply Z.div_lt_upper_bound; [lia|].
        rewrite Nat2Z.inj_succ, Z.pow_succ_r in Hn by lia. lia.
Qed.

Lemma log2_fuel n : (0 <= n)%Z -> (n < 10 * 2 ^ Z.of_nat (Z.to_nat (Z.log2 n)))%Z.
Proof.
  intros Hn. rewrite Z2Nat.id by apply Z.log2_nonneg.
  destruct (Z.eq_dec n 0%Z) as [->|]; [reflexivity|].
  pose proof (Z.log2_spec n ltac:(lia)) as Hs.
  rewrite Z.pow_succ_r in Hs by apply Z.log2_nonneg. lia.
Qed.

Lemma fmt_nat_decimal n : (0 <= n)%Z -> decimal_of n (fmt_nat n).
Proof.
  intros Hn. pose proof (log2_fuel n Hn) as Hfuel. repeat split.
  - unfold fmt_nat.
    destruct (fmt_digits_cons (Z.to_nat (Z.log2 n)) n []) as (c & l & ->).
    discriminate.
  - now apply fmt_nat_is_digit.
  - unfold decimal_value, fmt_nat. rewrite decimal_value_fmt_digits by lia.
    reflexivity.
  - intros l Hl. destruct (Z.eq_dec n 0%Z) as [->|Hnz].
    + vm_compute in Hl. now injection Hl as <-.
    + unfold fmt_nat in Hl.
      destruct (fmt_digits_head (Z.to_nat (Z.log2 n)) n [] ltac:(lia))
        as (c & l' & E & Hc).
      congruence.
Qed.

(** C7. [WriteBulkString] of the empty string emits exactly [$-1\r\n], and
    of a string [s] that is not empty exactly [$], the decimal numeral of
    the number of bytes of [s], CRLF, the bytes of [s], and CRLF. *)
Theorem WriteBulkString_emits w :
  WriteBulkString [] w
    = ({| sink := sink w ++ ["$"; "-"; "1"; "013"; "010"]%char |}, None) /\
  forall c s',
    let s := c :: s' in
    let len := fmt_d (Z.of_nat (length s)) in
    WriteBulkString s w
      = ({| sink := sink w ++ ["$"%char] ++ len ++ ["013"; "010"]%char
                    ++ s ++ ["013"; "010"]%char |}, None)
    /\ decimal_of (Z.of_nat (length s)) len.
Proof.
  split; [reflexivity|]. intros c s' s len. split; [reflexivity|].
  subst len. unfold fmt_d.
  destruct (Z.ltb_spec (Z.of_nat (length s)) 0); [lia|].
  apply fmt_nat_decimal. lia.
Qed.

(** C8 (as amended). Decoding the null encoding [$-1\r\n] returns the empty
    string, the very value that decoding [$0\r\n\r\n] returns, and the
    reader stops right after the length line. *)
Theorem null_bulk_string_is_empty_string rest :
  ReadObject (B "$-1" ++ CRLF ++ rest) = Some (Ok (OString []) rest) /\
  ReadObject (B "$0" ++ CRLF ++ CRLF ++ rest) = Some (Ok (OString []) rest).
Proof.
  split.
  - apply (ReadObject_wire (VBulkString []) eq_refl rest).
  - change (B "$0" ++ CRLF ++ CRLF ++ rest)
      with (BulkString :: fmt_d 0 ++ CRLF ++ [] ++ CRLF ++ rest).
    rewrite ReadObject_BulkString.
    now rewrite (readBulkString_payload _ 0 [] rest
                   (readInteger_fmt_d 0 _ ltac:(unfold MinInt64, MaxInt64; lia)))
      by (try reflexivity; unfold maxAlloc; cbn; lia).
Qed.

(** C8 (as stated) fails: the value decoded from [$-1\r\n] is not distinct
    from the one decoded from [$0\r\n\r\n]. *)
Lemma null_bulk_string_not_distinct :
  ~ (forall v1 v2,
       ReadObject (B "$-1" ++ CRLF) = Some (Ok v1 []) ->
       ReadObject (B "$0" ++ CRLF ++ CRLF) = Some (Ok v2 []) ->
       v1 <> v2).
Proof.
  intros H. apply (H (OString []) (OString [])); reflexivity.
Qed.

(** C9 at the failing inputs: a declared length below [-1] makes [make]
    panic, in a bulk string and in an array alike. *)
Theorem ReadObject_negative_length_panics :
  ReadObject (B "$-3" ++ CRLF) = Some (Panic MakesliceLenOutOfRange) /\
  ReadObject (B "*-2" ++ CRLF) = Some (Panic MakesliceLenOutOfRange).
Proof. split; reflexivity. Qed.

End resp_facts.

(** * Properties of the registry *)

Module command_facts.
Import command.

Section RegistryFacts.

Variable HandlerFunc : Type.

Implicit Types (e : Extension HandlerFunc) (c : Command HandlerFunc).
Implicit Types (cmd : option (Command HandlerFunc)) (name : string).

Lemma valid_true c : valid c = true <-> Name c <> EmptyString /\ is_Some (Handler c).
Proof.
  unfold valid. rewrite andb_true_iff, negb_true_iff, bool_decide_eq_true.
  destruct (String.eqb_spec (Name c) EmptyString); intuition congruence.
Qed.

(** A valid command is stored under its name, and nothing else changes. *)
Lemma AddCommand_valid e c :
  valid c = true ->
  AddCommand e (Some c)
  = ({| ExtensionName := ExtensionName e;
        commands := <[Name c := c]> (commands e) |}, None).
Proof.
  intros [Hname [h Hh]]%valid_true. unfold AddCommand.
  rewrite bool_decide_eq_false_2 by assumption. now rewrite Hh.
Qed.

(** A command that is not valid, and nil, leave the registry as it is. *)
Lemma AddCommand_invalid e c :
  valid c = false -> fst (AddCommand e (Some c)) = e.
Proof.
  intros Hv. unfold AddCommand.
  destruct (bool_decide_reflect (Name c = EmptyString)) as [|Hname]; [reflexivity|].
  destruct (Handler c) as [h|] eqn:Hh; [|reflexivity].
  assert (valid c = true) as Hv'
    by (apply valid_true; split; [assumption|]; rewrite Hh; eauto).
  congruence.
Qed.

(** C4. [AddCommand] fails, with three errors that differ from each other,
    on a nil command, on an empty name and on a nil handler, and then leaves
    the registry as it was; in every other case it returns nil and the
    command is the entry of its name, the other entries being as before. *)
Theorem AddCommand_checks e :
  AddCommand e None = (e, Some (errors_New "command cannot be nil")) /\
  (forall c, Name c = EmptyString ->
     AddCommand e (Some c)
     = (e, Some (errors_New "command name cannot be empty"))) /\
  (forall c, Name c <> EmptyString -> Handler c = None ->
     AddCommand e (Some c)
     = (e, Some (errors_New "command handler cannot be nil"))) /\
  (forall c, Name c <> EmptyString -> is_Some (Handler c) ->
     exists e', AddCommand e (Some c) = (e', None)
       /\ ExtensionName e' = ExtensionName e
       /\ commands e' !! Name c = Some c
       /\ forall name, name <> Name c ->
            commands e' !! name = commands e !! name) /\
  errors_New "command cannot be nil"
    <> errors_New "command name cannot be empty" /\
  errors_New "command cannot be nil"
    <> errors_New "command handler cannot be nil" /\
  errors_New "command name cannot be empty"
    <> errors_New "command handler cannot be nil".
Proof.
  split; [reflexivity|]. split; [|split; [|split]].
  - intros c Hname. unfold AddCommand.
    now rewrite bool_decide_eq_true_2 by assumption.
  - intros c Hname Hh. unfold AddCommand.
    rewrite bool_decide_eq_false_2 by assumption. now rewrite Hh.
  - intros c Hname Hh. eexists. split.
    + apply AddCommand_valid. now apply valid_true.
    + cbn [ExtensionName commands]. split; [reflexivity|]. split.
      * apply lookup_insert_eq.
      * intros name Hne. now apply lookup_insert_ne.
  - repeat split; discriminate.
Qed.

(** C5. Registering two valid commands of the same name, one after the
    other, leaves under this name the second one only: lookup returns it,
    the second registration adds no entry, and the registry is the one that
    registering the second command alone gives. *)
Theorem AddCommand_last_write_wins e c1 c2 :
  valid c1 = true -> valid c2 = true -> Name c1 = Name c2 ->
  exists e1 e2,
    AddCommand e (Some c1) = (e1, None)
    /\ AddCommand e1 (Some c2) = (e2, None)
    /\ GetCommand e2 (Name c1) = (Some c2, None)
    /\ (forall c, (Name c1, c) ∈ map_to_list (commands e2) <-> c = c2)
    /\ NoDup (map_to_list (commands e2)).*1
    /\ size (commands e2) = size (commands e1)
    /\ e2 = fst (AddCommand e (Some c2)).
Proof.
  intros Hv1 Hv2 Hname. do 2 eexists.
  split; [now apply AddCommand_valid|].
  split; [now apply AddCommand_valid|].
  cbn [ExtensionName commands]. rewrite <- Hname. repeat split.
  - unfold GetCommand. cbn [commands]. now rewrite lookup_insert_eq.
  - intros Hin%elem_of_map_to_list. rewrite lookup_insert_eq in Hin.
    congruence.
  - intros ->. apply elem_of_map_to_list. apply lookup_insert_eq.
  - apply NoDup_fst_map_to_list.
  - apply map_size_insert_Some. rewrite lookup_insert_eq. eauto.
  - rewrite (AddCommand_valid e c2 Hv2). cbn [fst]. f_equal.
    rewrite <- Hname. apply insert_insert_eq.
Qed.

Lemma AddCommand_lookup e cmd name :
  commands (fst (AddCommand e cmd)) !! name
  = match cmd with
    | Some c =>
        if valid c && String.eqb (Name c) name then Some c
        else commands e !! name
    | None => commands e !! name
    end.
Proof.
  destruct cmd as [c|]; [|reflexivity].
  destruct (valid c) eqn:Hv; cbn [andb].
  - rewrite AddCommand_valid by assumption. cbn [fst commands].
    destruct (String.eqb_spec (Name c) name) as [->|Hne].
    + apply lookup_insert_eq.
    + now apply lookup_insert_ne.
  - now rewrite AddCommand_invalid.
Qed.

Lemma GetCommand_lookup e name :
  GetCommand e name
  = match commands e !! name with
    | Some c => (Some c, None)
    | None => (None, Some ErrCommandNotFound)
    end.
Proof. unfold GetCommand. now destruct (commands e !! name). Qed.

(** C6. Lookup returns the command that is the entry of exactly this name,
    and fails with [ErrCommandNotFound] when the name has no entry; after
    any history of registrations the entry of a name is the last valid
    command registered whose name is this name byte for byte. *)
Theorem GetCommand_exact_name e name :
  (forall c, commands e !! name = Some c ->
     GetCommand e name = (Some c, None)) /\
  (commands e !! name = None ->
     GetCommand e name = (None, Some ErrCommandNotFound)) /\
  (forall history,
     GetCommand (register_all history e) name
     = match last_registered name history (commands e !! name) with
       | Some c => (Some c, None)
       | None => (None, Some ErrCommandNotFound)
       end).
Proof.
  split; [|split].
  - intros c Hc. now rewrite GetCommand_lookup, Hc.
  - intros Hc. now rewrite GetCommand_lookup, Hc.
  - intros history. revert e.
    induction history as [|cmd history IH]; intros e.
    + apply GetCommand_lookup.
    + change (register_all (cmd :: history) e)
        with (register_all history (fst (AddCommand e cmd))).
      rewrite IH, AddCommand_lookup. now destruct cmd.
Qed.

Lemma well_formed_NewExtension n : well_formed (@NewExtension HandlerFunc n).
Proof. intros name c Hc. cbn in Hc. now rewrite lookup_empty in Hc. Qed.

Lemma well_formed_AddCommand e cmd :
  well_formed e -> well_formed (fst (AddCommand e cmd)).
Proof.
  intros Hwf name c. rewrite AddCommand_lookup.
  destruct cmd as [c'|]; [|apply Hwf].
  destruct (valid c') eqn:Hv; cbn [andb]; [|apply Hwf].
  destruct (String.eqb_spec (Name c') name) as [<-|_]; [|apply Hwf].
  intros [= <-]. apply valid_true in Hv. tauto.
Qed.

(** C10. Every command stored in a registry has a name that is not empty
    and a handler that is not nil: this holds of a new registry, is kept by
    [AddCommand] whatever its argument, hence holds of every registry a
    program can build, and when lookup succeeds the command it returns has
    a handler. *)
Theorem registry_well_formed :
  (forall n, well_formed (@NewExtension HandlerFunc n)) /\
  (forall e cmd, well_formed e -> well_formed (fst (AddCommand e cmd))) /\
  (forall e, reachable e -> well_formed e) /\
  (forall e name cmd, reachable e -> GetCommand e name = (cmd, None) ->
     exists c, cmd = Some c /\ Name c = name /\ Name c <> EmptyString
               /\ is_Some (Handler c)).
Proof.
  assert (forall e, reachable e -> well_formed e) as Hreach.
  { induction 1; [apply well_formed_NewExtension|].
    now apply well_formed_AddCommand. }
  split; [apply well_formed_NewExtension|].
  split; [apply well_formed_AddCommand|].
  split; [assumption|].
  intros e name cmd He Hget. rewrite GetCommand_lookup in Hget.
  destruct (commands e !! name) as [c|] eqn:Hc; [|discriminate].
  injection Hget as <-. exists c. split; [reflexivity|].
  now apply (Hreach e He).
Qed.

End RegistryFacts.

Lemma AddCommand_checks_witness :
  AddCommand (NewExtension "hello-world") (Some (@New (list string -> string) EmptyString))
    = (NewExtension "hello-world",
       Some (errors_New "command name cannot be empty")) /\
  AddCommand (NewExtension "hello-world")
      (Some (@New (list string -> string) "HELLO.WORLD"))
    = (NewExtension "hello-world",
       Some (errors_New "command handler cannot be nil")) /\
  exists e', AddCommand (NewExtension "hello-world") (Some hello_cmd) = (e', None)
    /\ ExtensionName e' = "hello-world"
    /\ commands e' !! "HELLO.WORLD" = Some hello_cmd
    /\ forall name, name <> "HELLO.WORLD" -> commands e' !! name = None.
Proof.
  destruct (AddCommand_checks (list string -> string)
              (NewExtension "hello-world")) as (_ & Hname & Hh & Hok & _).
  split; [apply Hname; reflexivity|].
  split; [apply Hh; [discriminate|reflexivity]|].
  apply (Hok hello_cmd); [discriminate|eexists; reflexivity].
Defined.

Lemma AddCommand_last_write_wins_witness :
  exists e1 e2,
    AddCommand (NewExtension "echo") (Some echo_cmd) = (e1, None)
    /\ AddCommand e1 (Some echo_cmd') = (e2, None)
    /\ GetCommand e2 "ECHO.FIRST" = (Some echo_cmd', None)
    /\ (forall c, ("ECHO.FIRST", c) ∈ map_to_list (commands e2)
                  <-> c = echo_cmd')
    /\ NoDup (map_to_list (commands e2)).*1
    /\ size (commands e2) = size (commands e1)
    /\ e2 = fst (AddCommand (NewExtension "echo") (Some echo_cmd')).
Proof.
  apply (AddCommand_last_write_wins (list string -> string)
           (NewExtension "echo") echo_cmd echo_cmd'); reflexivity.
Defined.

Lemma GetCommand_exact_name_witness :
  GetCommand (fst (AddCommand (NewExtension "echo") (Some echo_cmd)))
    "ECHO.FIRST" = (Some echo_cmd, None) /\
  GetCommand (fst (AddCommand (NewExtension "echo") (Some echo_cmd)))
    "echo.first" = (None, Some ErrCommandNotFound).
Proof.
  split.
  - apply (GetCommand_exact_name (list string -> string)). reflexivity.
  - apply (GetCommand_exact_name (list string -> string)). reflexivity.
Defined.

Lemma registry_well_formed_witness :
  exists c, Some hello_cmd = Some c /\ Name c = "HELLO.WORLD"
            /\ Name c <> EmptyString /\ is_Some (Handler c).
Proof.
  destruct (registry_well_formed (list string -> string)) as (_ & _ & _ & H).
  apply (H (fst (AddCommand (NewExtension "hello-world") (Some hello_cmd)))).
  - apply reachable_add. apply reachable_new.
  - reflexivity.
Defined.

End command_facts.

(** * Further properties of the codec *)

Module resp_more.
Import resp resp_frames resp_facts.

(** ** Lines *)

Lemma ReadString_no_delim delim s : delim ∉ s -> ReadString delim s = Fail EOF.
Proof.
  induction s as [|c s IH]; intros Hs; [reflexivity|].
  apply not_elem_of_cons in Hs as [Hc Hs]. cbn [ReadString].
  destruct (Ascii.eqb_spec c delim); [congruence|]. now rewrite IH.
Qed.

Lemma readLine_no_LF s : LF ∉ s -> readLine s = Fail EOF.
Proof. intros Hs. unfold readLine. now rewrite ReadString_no_delim. Qed.

(** X1. [readLine] looks at the bytes up to the first line feed only: with
    no line feed in the stream it fails with [io.EOF]; when a carriage
    return stands before the line feed it returns the bytes before the two,
    carriage returns among them included; otherwise the format is
    invalid. *)
Theorem readLine_first_LF :
  (forall s, LF ∉ s -> readLine s = Fail EOF) /\
  (forall l rest, LF ∉ l -> readLine (l ++ CR :: LF :: rest) = Ok l rest) /\
  (forall l rest, LF ∉ l -> last l <> Some CR ->
     readLine (l ++ LF :: rest) = Fail ErrInvalidFormat).
Proof.
  split; [|split].
  - apply readLine_no_LF.
  - intros l rest Hl. apply (readLine_app l rest Hl).
  - intros l rest Hl Hlast. unfold readLine.
    rewrite ReadString_app by assumption. cbn [bind].
    destruct (decide (l = [])) as [->|Hne]; [reflexivity|].
    destruct (exists_last Hne) as (l' & c & ->).
    rewrite <- app_assoc. cbn [app]. rewrite length_app. cbn [length].
    replace (length l' + 2 - 2) with (length l') by lia.
    rewrite nth_middle.
    destruct (Nat.ltb_spec (length l' + 2) 2) as [?|_]; [lia|].
    destruct (Ascii.eqb_spec c CR) as [->|Hc]; [|reflexivity].
    exfalso. apply Hlast. apply last_snoc.
Qed.

Lemma readLine_first_LF_witness :
  readLine (B "PING") = Fail EOF /\
  readLine (B "a" ++ [CR] ++ B "b" ++ CR :: LF :: B "+next")
    = Ok (B "a" ++ [CR] ++ B "b") (B "+next") /\
  readLine (B "ab" ++ LF :: B "+next") = Fail ErrInvalidFormat.
Proof.
  destruct readLine_first_LF as (H1 & H2 & H3).
  split; [apply H1; now apply (bool_decide_unpack _)|].
  split.
  - apply (H2 (B "a" ++ [CR] ++ B "b") (B "+next")).
    now apply (bool_decide_unpack _).
  - apply (H3 (B "ab") (B "+next")); [now apply (bool_decide_unpack _)|].
    discriminate.
Defined.

(** ** Integers *)

Lemma digit_of_Some c d :
  digit_of c = Some d ->
  (0 <= d <= 9)%Z /\ d = (Z.of_N (N_of_ascii c) - 48)%Z.
Proof.
  unfold digit_of. intros H.
  destruct (Z.leb_spec 48 (Z.of_N (N_of_ascii c))); cbn [andb] in H;
    [|discriminate].
  destruct (Z.leb_spec (Z.of_N (N_of_ascii c)) 57); [|discriminate].
  injection H as <-. lia.
Qed.

Lemma decimal_fold_ge d : Forall is_digit d -> forall n,
  (n <= fold_left (fun a c => (10 * a + (Z.of_N (N_of_ascii c) - 48))%Z) d n
   \/ n < 0)%Z.
Proof.
  induction 1 as [|c d [dv Hc] _ IH]; intros n; cbn [fold_left]; [lia|].
  apply digit_of_Some in Hc as [Hdv <-].
  destruct (IH (10 * n + dv)%Z); lia.
Qed.

(** On digits the loop of [ParseUint] computes the number they denote, or
    reports that it passes [MaxUint64]. *)
Lemma ParseUint_loop_digits d : Forall is_digit d -> forall n,
  (0 <= n <= MaxUint64)%Z ->
  ParseUint_loop n d
  = let v := fold_left
               (fun a c => (10 * a + (Z.of_N (N_of_ascii c) - 48))%Z) d n in
    if (v <=? MaxUint64)%Z then (v, None) else (MaxUint64, Some ErrRange).
Proof.
  induction 1 as [|c d Hcd Hd IH]; intros n Hn; cbn [ParseUint_loop fold_left].
  - cbv zeta. destruct (Z.leb_spec n MaxUint64); [reflexivity|lia].
  - destruct Hcd as [dv Hc]. rewrite Hc.
    apply digit_of_Some in Hc as [Hdv <-].
    destruct (Z.ltb_spec MaxUint64 (10 * n + dv)) as [Hover|Hfit].
    + cbv zeta. pose proof (decimal_fold_ge d Hd (10 * n + dv)%Z).
      destruct (Z.leb_spec
                  (fold_left
                     (fun a c => (10 * a + (Z.of_N (N_of_ascii c) - 48))%Z)
                     d (10 * n + dv)%Z) MaxUint64); [lia|reflexivity].
    + apply IH. lia.
Qed.

Lemma ParseUint_digits d :
  d <> [] -> Forall is_digit d ->
  ParseUint d
  = if (decimal_value d <=? MaxUint64)%Z then (decimal_value d, None)
    else (MaxUint64, Some ErrRange).
Proof.
  intros Hne Hd. unfold ParseUint. destruct d as [|c d]; [congruence|].
  now rewrite ParseUint_loop_digits by (auto; unfold MaxUint64; lia).
Qed.

Lemma decimal_value_nonneg d : Forall is_digit d -> (0 <= decimal_value d)%Z.
Proof.
  intros Hd. destruct (decimal_fold_ge d Hd 0%Z); [assumption|lia].
Qed.

Lemma digits_no_LF d : Forall is_digit d -> LF ∉ d.
Proof.
  intros Hd Hin. rewrite Forall_forall in Hd. apply Hd in Hin.
  now apply is_digit_not in Hin as [? _].
Qed.

(** X2. A line of decimal digits is read as the number it denotes, leading
    zeros or not, when this number is at most [MaxInt64], and refused with a
    range error otherwise; a [+] before the digits changes nothing, and a
    [-] gives the opposite number, down to [MinInt64]. *)
Theorem readInteger_numeral d rest :
  d <> [] -> Forall is_digit d ->
  readInteger (d ++ CRLF ++ rest)
    = (if (decimal_value d <=? MaxInt64)%Z then Ok (decimal_value d) rest
       else Fail (NumError d ErrRange)) /\
  readInteger ("+"%char :: d ++ CRLF ++ rest)
    = (if (decimal_value d <=? MaxInt64)%Z then Ok (decimal_value d) rest
       else Fail (NumError ("+"%char :: d) ErrRange)) /\
  readInteger ("-"%char :: d ++ CRLF ++ rest)
    = (if (decimal_value d <=? - MinInt64)%Z then Ok (- decimal_value d)%Z rest
       else Fail (NumError ("-"%char :: d) ErrRange)).
Proof.
  intros Hne Hd. pose proof (digits_no_LF d Hd) as HLF.
  pose proof (decimal_value_nonneg d Hd) as Hpos.
  pose proof (ParseUint_digits d Hne Hd) as HP.
  unfold MaxInt64, MinInt64, MaxUint64 in *.
  assert (forall sign : bytes, LF ∉ sign ->
            readInteger ((sign ++ d) ++ CRLF ++ rest)
            = match ParseInt (sign ++ d) with
              | inl i => Ok i rest
              | inr e => Fail e
              end) as Hline.
  { intros sign Hs. unfold readInteger. rewrite readLine_app; [reflexivity|].
    intros [?|?]%elem_of_app; auto. }
  split; [|split].
  - etransitivity; [exact (Hline [] (not_elem_of_nil _))|].
    unfold ParseInt. cbn [app]. destruct d as [|c d']; [congruence|].
    assert (is_digit c) as Hc by (now apply Forall_cons in Hd as [? _]).
    apply is_digit_not in Hc as (_ & Hm & Hp).
    destruct (Ascii.eqb_spec c "-"); [contradiction|].
    destruct (Ascii.eqb_spec c "+"); [contradiction|]. cbn [orb negb andb].
    rewrite HP.
    destruct (Z.leb_spec (decimal_value (c :: d')) 18446744073709551615);
      destruct (Z.leb_spec (decimal_value (c :: d')) 9223372036854775807);
      destruct (Z.leb_spec (2 ^ 63) (decimal_value (c :: d')));
      try lia; reflexivity.
  - etransitivity;
      [exact (Hline ["+"%char] ltac:(now apply (bool_decide_unpack _)))|].
    unfold ParseInt. cbn [app].
    change (Ascii.eqb "+" "-") with false. change (Ascii.eqb "+" "+") with true.
    cbn [orb negb andb]. rewrite HP.
    destruct (Z.leb_spec (decimal_value d) 18446744073709551615);
      destruct (Z.leb_spec (decimal_value d) 9223372036854775807);
      destruct (Z.leb_spec (2 ^ 63) (decimal_value d));
      try lia; reflexivity.
  - etransitivity;
      [exact (Hline ["-"%char] ltac:(now apply (bool_decide_unpack _)))|].
    unfold ParseInt. cbn [app].
    change (Ascii.eqb "-" "-") with true. change (Ascii.eqb "-" "+") with false.
    cbn [orb negb andb]. rewrite HP.
    destruct (Z.leb_spec (decimal_value d) 18446744073709551615);
      destruct (Z.leb_spec (decimal_value d) (- -9223372036854775808));
      destruct (Z.ltb_spec (2 ^ 63) (decimal_value d));
      try lia; reflexivity.
Qed.

Lemma readInteger_numeral_witness :
  readInteger (B "007" ++ CRLF ++ B "+next") = Ok 7%Z (B "+next") /\
  readInteger (B "+9223372036854775808" ++ CRLF)
    = Fail (NumError (B "+9223372036854775808") ErrRange) /\
  readInteger (B "-9223372036854775808" ++ CRLF) = Ok MinInt64 [].
Proof.
  split; [|split].
  - apply (readInteger_numeral (B "007") (B "+next")); [discriminate|].
    repeat (constructor; [eexists; reflexivity|]). constructor.
  - apply (readInteger_numeral (B "9223372036854775808") []); [discriminate|].
    repeat (constructor; [eexists; reflexivity|]). constructor.
  - apply (readInteger_numeral (B "9223372036854775808") []); [discriminate|].
    repeat (constructor; [eexists; reflexivity|]). constructor.
Defined.

Lemma ParseUint_loop_bounds s : forall n,
  (0 <= n <= MaxUint64)%Z ->
  (0 <= fst (ParseUint_loop n s) <= MaxUint64)%Z.
Proof.
  induction s as [|c s IH]; intros n Hn; cbn [ParseUint_loop]; [assumption|].
  destruct (digit_of c) as [dv|] eqn:Hc; [|unfold MaxUint64; cbn; lia].
  apply digit_of_Some in Hc as [Hdv _].
  destruct (Z.ltb_spec MaxUint64 (10 * n + dv)); [unfold MaxUint64; cbn; lia|].
  apply IH. lia.
Qed.

Lemma ParseInt_in_int64 s i :
  ParseInt s = inl i -> (MinInt64 <= i <= MaxInt64)%Z.
Proof.
  unfold ParseInt. destruct s as [|c s']; [discriminate|]. cbv zeta.
  set (digits := if Ascii.eqb c "+" || Ascii.eqb c "-" then s' else c :: s').
  assert (0 <= fst (ParseUint digits) <= MaxUint64)%Z as Hun.
  { unfold ParseUint. destruct digits; [unfold MaxUint64; cbn; lia|].
    apply ParseUint_loop_bounds. unfold MaxUint64. lia. }
  destruct (ParseUint digits) as [un [[|]|]]; cbn [fst] in Hun;
    try discriminate;
    unfold MinInt64, MaxInt64;
    destruct (Ascii.eqb c "-"); cbn [negb andb];
    destruct (Z.leb_spec (2 ^ 63) un); destruct (Z.ltb_spec (2 ^ 63) un);
    intros [= <-]; lia.
Qed.

(** When the loop of [ParseUint] reports no error, it has seen digits only
    and its result is the number they denote on top of [n]; a range error
    comes with [MaxUint64]. *)
Lemma ParseUint_loop_None s : forall n un,
  ParseUint_loop n s = (un, None) ->
  Forall is_digit s /\
  un = fold_left (fun a c => (10 * a + (Z.of_N (N_of_ascii c) - 48))%Z) s n.
Proof.
  induction s as [|c s IH]; intros n un H; cbn [ParseUint_loop fold_left] in *.
  - injection H as <-. split; [constructor|reflexivity].
  - destruct (digit_of c) as [dv|] eqn:Hc; [|discriminate].
    destruct (MaxUint64 <? 10 * n + dv)%Z; [discriminate|].
    apply IH in H as [Hs ->].
    split; [constructor; [now exists dv|assumption]|].
    now apply digit_of_Some in Hc as [_ <-].
Qed.

Lemma ParseUint_loop_ErrRange s : forall n un,
  ParseUint_loop n s = (un, Some ErrRange) -> un = MaxUint64.
Proof.
  induction s as [|c s IH]; intros n un H; cbn [ParseUint_loop] in H;
    [discriminate|].
  destruct (digit_of c) as [dv|]; [|discriminate].
  destruct (MaxUint64 <? 10 * n + dv)%Z; [now injection H as <-|].
  now apply IH in H.
Qed.

Lemma ParseUint_None d un :
  ParseUint d = (un, None) ->
  d <> [] /\ Forall is_digit d /\ un = decimal_value d.
Proof.
  unfold ParseUint. destruct d as [|c d]; [discriminate|].
  intros [Hd ->]%ParseUint_loop_None. now repeat split.
Qed.

Lemma ParseUint_ErrRange d un :
  ParseUint d = (un, Some ErrRange) -> un = MaxUint64.
Proof.
  unfold ParseUint. destruct d as [|c d]; [discriminate|].
  apply ParseUint_loop_ErrRange.
Qed.

(** What [ParseInt] accepts is a numeral, and what it returns for it is the
    number the numeral denotes. *)
Lemma ParseInt_inl line i :
  ParseInt line = inl i ->
  exists sign d,
    line = sign ++ d /\
    (sign = [] \/ sign = ["+"%char] \/ sign = ["-"%char]) /\
    d <> [] /\ Forall is_digit d /\
    i = if bool_decide (sign = ["-"%char]) then (- decimal_value d)%Z
        else decimal_value d.
Proof.
  unfold ParseInt. destruct line as [|c s']; [discriminate|]. cbv zeta.
  assert (forall (sign d : bytes) (neg : bool),
            c :: s' = sign ++ d ->
            (sign = [] \/ sign = ["+"%char] \/ sign = ["-"%char]) ->
            neg = bool_decide (sign = ["-"%char]) ->
            match ParseUint d with
            | (_, Some ErrSyntax) => inr (NumError (c :: s') ErrSyntax)
            | (un, _) =>
                if negb neg && (2 ^ 63 <=? un)%Z
                then inr (NumError (c :: s') ErrRange)
                else if neg && (2 ^ 63 <? un)%Z
                     then inr (NumError (c :: s') ErrRange)
                     else inl (if neg then (- un)%Z else un)
            end = inl i ->
            exists sign d,
              c :: s' = sign ++ d /\
              (sign = [] \/ sign = ["+"%char] \/ sign = ["-"%char]) /\
              d <> [] /\ Forall is_digit d /\
              i = if bool_decide (sign = ["-"%char])
                  then (- decimal_value d)%Z else decimal_value d) as Hsign.
  { intros sign d neg Hline Hs -> H. exists sign, d.
    destruct (ParseUint d) as [un [[|]|]] eqn:HP; [discriminate| |].
    - apply ParseUint_ErrRange in HP as ->. exfalso.
      destruct (bool_decide (sign = ["-"%char])); discriminate H.
    - apply ParseUint_None in HP as (Hne & Hd & ->).
      repeat (split; [assumption|]).
      destruct (bool_decide (sign = ["-"%char])); cbn [negb andb] in H;
        [destruct (2 ^ 63 <? decimal_value d)%Z
        |destruct (2 ^ 63 <=? decimal_value d)%Z];
        now inversion H. }
  destruct (Ascii.eqb_spec c "+") as [->|Hplus].
  { change (Ascii.eqb "+" "-") with false. cbn [orb].
    apply (Hsign ["+"%char] s' false); auto. }
  destruct (Ascii.eqb_spec c "-") as [->|Hminus]; cbn [orb].
  { apply (Hsign ["-"%char] s' true); auto. }
  apply (Hsign [] (c :: s') false); auto.
Qed.

(** X3. [readInteger] returns an integer for a numeral only, and the
    integer is the number that the numeral denotes, which lies between
    [MinInt64] and [MaxInt64]: the bytes read are an optional sign, digits,
    at least one, and CRLF, and the result is the value of the digits, or
    its opposite after [-]. A numeral out of range is thus never read as a
    wrapped value. *)
Theorem readInteger_exact s i rest :
  readInteger s = Ok i rest ->
  exists sign d,
    s = sign ++ d ++ CRLF ++ rest /\
    (sign = [] \/ sign = ["+"%char] \/ sign = ["-"%char]) /\
    d <> [] /\ Forall is_digit d /\
    i = (if bool_decide (sign = ["-"%char]) then (- decimal_value d)%Z
         else decimal_value d) /\
    (MinInt64 <= i <= MaxInt64)%Z.
Proof.
  intros (line & -> & _ & HP)%readInteger_Ok.
  pose proof (ParseInt_in_int64 _ _ HP) as Hrange.
  apply ParseInt_inl in HP as (sign & d & -> & Hsign & Hne & Hd & Hi).
  exists sign, d. rewrite <- app_assoc. now repeat split.
Qed.

Lemma readInteger_exact_witness :
  exists sign d,
    B "-42" ++ CRLF ++ B "+next" = sign ++ d ++ CRLF ++ B "+next" /\
    (sign = [] \/ sign = ["+"%char] \/ sign = ["-"%char]) /\
    d <> [] /\ Forall is_digit d /\
    (-42)%Z = (if bool_decide (sign = ["-"%char]) then (- decimal_value d)%Z
               else decimal_value d) /\
    (MinInt64 <= -42 <= MaxInt64)%Z.
Proof.
  apply (readInteger_exact (B "-42" ++ CRLF ++ B "+next") (-42) (B "+next")).
  reflexivity.
Defined.

(** ** Frames *)

Lemma readLine_frame s line rest :
  readLine s = Ok line rest ->
  s = (line ++ CRLF) ++ rest /\
  forall rest', readLine ((line ++ CRLF) ++ rest') = Ok line rest'.
Proof.
  intros [-> Hl]%readLine_Ok. split; [now rewrite <- app_assoc|].
  intros rest'. rewrite <- app_assoc. now apply readLine_app.
Qed.

Lemma readInteger_frame s i rest :
  readInteger s = Ok i rest ->
  exists frame, s = frame ++ rest /\ frame <> [] /\
    forall rest', readInteger (frame ++ rest') = Ok i rest'.
Proof.
  intros (line & -> & Hl & HP)%readInteger_Ok. exists (line ++ CRLF).
  split; [now rewrite <- app_assoc|]. split; [now destruct line|].
  intros rest'. rewrite <- app_assoc. now apply readInteger_app.
Qed.

Lemma ReadFull_frame n s buf rest :
  (0 <= n)%Z -> ReadFull n s = Ok buf rest ->
  s = buf ++ rest /\ forall rest', ReadFull n (buf ++ rest') = Ok buf rest'.
Proof.
  unfold ReadFull. intros Hn H.
  destruct (Z.ltb_spec (Z.of_nat (length s)) n) as [|Hlen];
    [destruct s; discriminate|].
  injection H as <- <-. split; [now rewrite take_drop|].
  intros rest'. rewrite length_app, length_take_le by lia.
  destruct (Z.ltb_spec (Z.of_nat (Z.to_nat n + length rest')) n); [lia|].
  rewrite take_app_length', drop_app_length';
    [reflexivity|rewrite length_take_le; lia..].
Qed.

Lemma readBulkString_frame s b rest :
  readBulkString s = Ok b rest ->
  exists frame, s = frame ++ rest /\ frame <> [] /\
    forall rest', readBulkString (frame ++ rest') = Ok b rest'.
Proof.
  unfold readBulkString. intros H.
  destruct (readInteger s) as [len r| |] eqn:E; cbn [bind] in H;
    try discriminate.
  apply readInteger_frame in E as (hd & -> & Hhd & Hre).
  destruct (Z.eqb_spec len (-1)) as [->|Hlen].
  { injection H as <- <-. exists hd. split; [reflexivity|]. split; [assumption|].
    intros rest'. now rewrite Hre. }
  destruct (make_panics byte_size (wrap64 (len + 2))) eqn:Hmake;
    [discriminate|].
  pose proof (proj1 (make_panics_false _ _) Hmake) as [Hn _].
  destruct (ReadFull (wrap64 (len + 2)) r) as [buf r'| |] eqn:EF;
    cbn [bind] in H; try discriminate.
  apply ReadFull_frame in EF as [-> Hfull]; [|assumption].
  destruct (HasSuffix buf CRLF) eqn:Hsuffix; cbn [negb] in H; [|discriminate].
  unfold slice_to in H.
  destruct ((len <? 0)%Z || (Z.of_nat (length buf) <? len)%Z) eqn:Hslice;
    [discriminate|].
  injection H as <- <-.
  exists (hd ++ buf). split; [now rewrite <- app_assoc|].
  split; [intros [? _]%app_eq_nil; contradiction|].
  intros rest'. rewrite <- app_assoc, Hre. cbn [bind].
  destruct (Z.eqb_spec len (-1)); [contradiction|].
  rewrite Hmake.
  rewrite Hfull. cbn [bind]. rewrite Hsuffix. cbn [negb].
  unfold slice_to. now rewrite Hslice.
Qed.

Lemma framed_object_step s :
  (forall s', length s' < length s -> framed_loop s') -> framed_object s.
Proof.
  intros IH x rest H. rewrite ReadObject_eq in H. unfold ReadObject_body in H.
  destruct s as [|typ s1]; [discriminate|]. cbn [ReadByte obind] in H.
  assert (forall (A : Type) (m : outcome A) (k : A -> Object)
            (read : bytes -> outcome A),
            m = read s1 ->
            Some (do (a, r) <- m; Ok (k a) r) = Some (Ok x rest) ->
            (forall a r, read s1 = Ok a r ->
               exists frame, s1 = frame ++ r /\
                 forall rest', read (frame ++ rest') = Ok a rest') ->
            exists frame, s1 = frame ++ rest /\
              forall rest', (do (a, r) <- read (frame ++ rest'); Ok (k a) r)
                            = Ok x rest') as Hleaf.
  { intros A m k read -> Hm Hframe. injection Hm as Hm.
    destruct (read s1) as [a r| |] eqn:E; cbn [bind] in Hm; try discriminate.
    injection Hm as <- <-. destruct (Hframe a r eq_refl) as (frame & -> & Hre).
    exists frame. split; [reflexivity|]. intros rest'. now rewrite Hre. }
  destruct (Ascii.eqb typ SimpleString) eqn:E1.
  { apply (Hleaf _ _ OString readLine eq_refl) in H as (frame & -> & Hre).
    - exists (typ :: frame). split; [reflexivity|]. split; [discriminate|].
      intros rest'. cbn [app]. rewrite ReadObject_eq. unfold ReadObject_body.
      cbn [ReadByte obind]. now rewrite E1, Hre.
    - intros a r [-> Hre]%readLine_frame. eauto. }
  destruct (Ascii.eqb typ Error) eqn:E2.
  { apply (Hleaf _ _ OError readLine eq_refl) in H as (frame & -> & Hre).
    - exists (typ :: frame). split; [reflexivity|]. split; [discriminate|].
      intros rest'. cbn [app]. rewrite ReadObject_eq. unfold ReadObject_body.
      cbn [ReadByte obind]. now rewrite E1, E2, Hre.
    - intros a r [-> Hre]%readLine_frame. eauto. }
  destruct (Ascii.eqb typ Integer) eqn:E3.
  { apply (Hleaf _ _ OInt64 readInteger eq_refl) in H as (frame & -> & Hre).
    - exists (typ :: frame). split; [reflexivity|]. split; [discriminate|].
      intros rest'. cbn [app]. rewrite ReadObject_eq. unfold ReadObject_body.
      cbn [ReadByte obind]. now rewrite E1, E2, E3, Hre.
    - intros a r (frame & -> & _ & Hre)%readInteger_frame. eauto. }
  destruct (Ascii.eqb typ BulkString) eqn:E4.
  { apply (Hleaf _ _ OString readBulkString eq_refl) in H as (frame & -> & Hre).
    - exists (typ :: frame). split; [reflexivity|]. split; [discriminate|].
      intros rest'. cbn [app]. rewrite ReadObject_eq. unfold ReadObject_body.
      cbn [ReadByte obind]. now rewrite E1, E2, E3, E4, Hre.
    - intros a r (frame & -> & _ & Hre)%readBulkString_frame. eauto. }
  destruct (Ascii.eqb typ Array) eqn:E5; [|discriminate].
  rewrite readArray_eq in H. unfold readArray_body in H.
  destruct (readInteger s1) as [len r| |] eqn:E; cbn [obind] in H;
    try discriminate.
  pose proof (readInteger_shrinks _ _ _ E) as Hshrink.
  apply readInteger_frame in E as (hd & -> & Hhd & Hre).
  assert (forall rest',
            ReadObject (typ :: hd ++ rest')
            = readArray_body readArray_loop (hd ++ rest')) as Hunfold.
  { intros rest'. rewrite ReadObject_eq. unfold ReadObject_body.
    cbn [ReadByte obind]. rewrite E1, E2, E3, E4, E5. apply readArray_eq. }
  destruct (Z.eqb_spec len (-1)) as [->|Hlen].
  { injection H as <- <-. exists (typ :: hd). split; [reflexivity|].
    split; [discriminate|]. intros rest'. cbn [app]. rewrite Hunfold.
    unfold readArray_body. now rewrite Hre. }
  destruct (make_panics interface_size len) eqn:Hmake; [discriminate|].
  pose proof (proj1 (make_panics_false _ _) Hmake) as [Hpos _].
  destruct (readArray_loop len r) as [[xs r'| |]|] eqn:EL; cbn [obind] in H;
    try discriminate.
  injection H as <- <-.
  apply IH in EL as (frame & -> & Hloop); [|cbn [length]; lia].
  exists (typ :: hd ++ frame). split; [cbn [app]; now rewrite <- app_assoc|].
  split; [discriminate|]. intros rest'. cbn [app]. rewrite <- app_assoc.
  rewrite Hunfold. unfold readArray_body. rewrite Hre. cbn [obind].
  destruct (Z.eqb_spec len (-1)); [contradiction|].
  rewrite Hmake. now rewrite Hloop.
Qed.

Lemma framed_loop_step s :
  framed_object s -> (forall s', length s' < length s -> framed_loop s') ->
  framed_loop s.
Proof.
  intros HO IH n xs rest H. rewrite readArray_loop_eq in H.
  unfold readArray_loop_body in H.
  destruct (Z.leb_spec n 0) as [Hn|Hn].
  { injection H as <- <-. exists []. split; [reflexivity|]. intros rest'.
    rewrite readArray_loop_eq. unfold readArray_loop_body.
    now destruct (Z.leb_spec n 0); [|lia]. }
  destruct (ReadObject s) as [[x r| |]|] eqn:EO; cbn [obind] in H;
    try discriminate.
  pose proof (ReadObject_shrinks _ _ _ EO) as Hshrink.
  apply HO in EO as (f1 & -> & _ & Hre1).
  destruct (readArray_loop (n - 1) r) as [[ys r'| |]|] eqn:EL;
    cbn [obind] in H; try discriminate.
  injection H as <- <-. apply IH in EL as (f2 & -> & Hre2); [|assumption].
  exists (f1 ++ f2). split; [now rewrite <- app_assoc|]. intros rest'.
  rewrite readArray_loop_eq. unfold readArray_loop_body.
  destruct (Z.leb_spec n 0); [lia|].
  rewrite <- app_assoc, Hre1. cbn [obind]. now rewrite Hre2.
Qed.

Lemma framed_all k : forall s,
  length s < k -> framed_object s /\ framed_loop s.
Proof.
  induction k as [|k IH]; intros s Hs; [lia|].
  assert (forall s', length s' < length s -> framed_loop s') as IHL
    by (intros s' Hs'; apply IH; lia).
  pose proof (framed_object_step s IHL) as HO.
  split; [assumption|]. now apply framed_loop_step.
Qed.

(** X4. The encodings are self-delimiting: when [ReadObject] returns a
    value, it has consumed a frame that is not empty and stands at the head
    of the stream, and this frame gives the same value whatever follows
    it. *)
Theorem ReadObject_frame s x rest :
  ReadObject s = Some (Ok x rest) ->
  exists frame, s = frame ++ rest /\ frame <> [] /\
    forall rest', ReadObject (frame ++ rest') = Some (Ok x rest').
Proof. apply (framed_all (S (length s)) s). lia. Qed.

Lemma ReadObject_frame_witness :
  exists frame,
    B "*1" ++ CRLF ++ B "$2" ++ CRLF ++ B "hi" ++ CRLF ++ B ":5" ++ CRLF
    = frame ++ (B ":5" ++ CRLF) /\ frame <> [] /\
    forall rest',
      ReadObject (frame ++ rest') = Some (Ok (OSlice [OString (B "hi")]) rest').
Proof.
  apply (ReadObject_frame
           (B "*1" ++ CRLF ++ B "$2" ++ CRLF ++ B "hi" ++ CRLF ++ B ":5" ++ CRLF)).
  reflexivity.
Defined.

(** ** Sequences of values *)

(** X5. Values written one after the other are read back one after the
    other: the stream of the encodings of wire-safe trees gives their Go
    values in order, and what follows the last one is left unread. *)
Theorem reads_encoded_sequence vs rest :
  forallb wire_safe vs = true ->
  reads (concat (map encoded vs) ++ rest) (map goValue vs) rest.
Proof.
  intros Hsafe. rewrite forallb_forall in Hsafe.
  replace (map encoded vs) with (map wire vs)
    by (apply map_ext; intros v; now rewrite encoded_wire).
  apply wire_elems_reads. apply Forall_forall. intros v Hv rest'.
  apply ReadObject_wire. apply Hsafe. now apply list_elem_of_In.
Qed.

Lemma reads_encoded_sequence_witness :
  reads (concat (map encoded [VInteger 1; VBulkString (B "two"); VNullArray])
         ++ B "+next")
    [OInt64 1; OString (B "two"); ONilSlice] (B "+next").
Proof.
  apply (reads_encoded_sequence
           [VInteger 1; VBulkString (B "two"); VNullArray] (B "+next")).
  reflexivity.
Defined.

(** X6. Unlike bulk strings, arrays keep null and empty apart: [WriteArray]
    with any negative length writes the null array, which is read back as
    the nil slice, and [WriteArray 0] writes a header that is read back as
    an empty slice that is not nil. *)
Theorem WriteArray_null_or_empty k w rest :
  (k < 0)%Z ->
  WriteArray k w = WriteArray (-1) w /\
  ReadObject (sink (fst (WriteArray k NewWriter)) ++ rest)
    = Some (Ok ONilSlice rest) /\
  ReadObject (sink (fst (WriteArray 0 NewWriter)) ++ rest)
    = Some (Ok (OSlice []) rest) /\
  ONilSlice <> OSlice [].
Proof.
  intros Hk. unfold WriteArray. destruct (Z.ltb_spec k 0); [|lia].
  split; [reflexivity|]. split; [|split; [|discriminate]].
  - apply (ReadObject_wire VNullArray eq_refl rest).
  - apply (ReadObject_wire (VArray []) eq_refl rest).
Qed.

Lemma WriteArray_null_or_empty_witness :
  ReadObject (sink (fst (WriteArray (-7) NewWriter)) ++ B "+next")
    = Some (Ok ONilSlice (B "+next")).
Proof.
  apply (WriteArray_null_or_empty (-7) NewWriter (B "+next")). lia.
Defined.

(** X7. [WriteSimpleString] and [WriteError] write their text as it is: of
    a text with CRLF in it the reader gets what stands before the first
    CRLF only, and the remainder of the text stays in the stream as the
    beginning of the next frame. *)
Theorem line_text_not_escaped a t rest :
  LF ∉ a ->
  ReadObject (sink (fst (WriteSimpleString (a ++ CRLF ++ t) NewWriter)) ++ rest)
    = Some (Ok (OString a) (t ++ CRLF ++ rest)) /\
  ReadObject (sink (fst (WriteError (a ++ CRLF ++ t) NewWriter)) ++ rest)
    = Some (Ok (OError a) (t ++ CRLF ++ rest)).
Proof.
  intros Ha. cbn [WriteSimpleString WriteError writeString fst sink NewWriter app].
  rewrite <- !app_assoc. cbn [app]. split.
  - rewrite ReadObject_SimpleString.
    now rewrite (readLine_app a (t ++ CRLF ++ rest) Ha).
  - rewrite ReadObject_Error.
    now rewrite (readLine_app a (t ++ CRLF ++ rest) Ha).
Qed.

Lemma line_text_not_escaped_witness :
  ReadObject (sink (fst (WriteError (B "ERR x" ++ CRLF ++ B "+OK") NewWriter)))
    = Some (Ok (OError (B "ERR x")) (B "+OK" ++ CRLF)).
Proof.
  pose proof (line_text_not_escaped (B "ERR x") (B "+OK") []) as H.
  rewrite !app_nil_r in H. apply H. now apply (bool_decide_unpack _).
Defined.

Lemma wire_prefix_free v1 v2 r1 r2 :
  wire_safe v1 = true -> wire_safe v2 = true ->
  wire v1 ++ r1 = wire v2 ++ r2 ->
  wire v1 = wire v2 /\ r1 = r2 /\ goValue v1 = goValue v2.
Proof.
  intros H1 H2 Heq.
  pose proof (ReadObject_wire v1 H1 r1) as E1.
  pose proof (ReadObject_wire v2 H2 r2) as E2.
  rewrite Heq, E2 in E1. injection E1 as Hv Hr. subst r2.
  split; [now apply app_inv_tail in Heq|]. split; [reflexivity|congruence].
Qed.

Lemma wire_elems_inj e1 :
  Forall (fun v => forall v2, wire_safe v = true -> wire_safe v2 = true ->
                     wire v = wire v2 -> v = v2) e1 ->
  forall e2, forallb wire_safe e1 = true -> forallb wire_safe e2 = true ->
    length e1 = length e2 ->
    concat (map wire e1) = concat (map wire e2) -> e1 = e2.
Proof.
  induction 1 as [|a e1 Ha _ IH]; intros [|b e2] S1 S2 Hlen Heq;
    try discriminate; [reflexivity|].
  cbn [forallb] in S1, S2. apply andb_true_iff in S1 as [Sa S1].
  apply andb_true_iff in S2 as [Sb S2]. cbn [map concat] in Heq.
  apply wire_prefix_free in Heq as (Hab & Hrest & _); [|assumption..].
  f_equal; [now apply Ha|]. apply IH; auto.
Qed.

Lemma wire_inj v1 : forall v2,
  wire_safe v1 = true -> wire_safe v2 = true -> wire v1 = wire v2 -> v1 = v2.
Proof.
  induction v1 as [s|msg|i|s| |e1 IH] using Value_nested_ind;
    intros v2 S1 S2 Heq;
    pose proof (wire_prefix_free _ v2 [] [] S1 S2
                  ltac:(now rewrite Heq)) as (_ & _ & Hgo);
    destruct v2 as [s2|msg2|i2|s2| |e2]; cbn [goValue] in Hgo;
    try discriminate Hgo; try (injection Hgo as ->; reflexivity);
    try reflexivity.
  - cbn [wire] in Heq. destruct (bool_decide (s2 = [])); discriminate Heq.
  - cbn [wire] in Heq. destruct (bool_decide (s = [])); discriminate Heq.
  - injection Hgo as Hgo. f_equal.
    assert (length e1 = length e2) as Hlen
      by (rewrite <- (length_map goValue e1), Hgo; apply length_map).
    cbn [wire_safe] in S1, S2. apply andb_true_iff in S1 as [_ S1].
    apply andb_true_iff in S2 as [_ S2].
    apply (wire_elems_inj e1 IH e2 S1 S2 Hlen).
    cbn [wire] in Heq. rewrite Hlen in Heq. now do 3 apply app_inv_head in Heq.
Qed.

(** X8. The encoding is injective and prefix-free on wire-safe trees: when
    two encodings with anything after them give the same stream, the two
    trees are the same tree, and what follows them is the same. *)
Theorem encoded_prefix_free v1 v2 r1 r2 :
  wire_safe v1 = true -> wire_safe v2 = true ->
  encoded v1 ++ r1 = encoded v2 ++ r2 ->
  v1 = v2 /\ r1 = r2.
Proof.
  intros H1 H2 Heq. rewrite !encoded_wire in Heq.
  apply wire_prefix_free in Heq as (Hw & Hr & _); [|assumption..].
  split; [now apply wire_inj|assumption].
Qed.

Lemma encoded_prefix_free_witness :
  VArray [VInteger 7] = VArray [VInteger 7] /\ B "+next" = B "+next".
Proof.
  apply (encoded_prefix_free (VArray [VInteger 7]) (VArray [VInteger 7])
           (B "+next") (B "+next")); reflexivity.
Defined.

(** ** Streams that stop inside a frame *)

Lemma cut_cases (p q f1 f2 : bytes) :
  p ++ q = f1 ++ f2 -> q <> [] ->
  (exists q1, q1 <> [] /\ f1 = p ++ q1) \/
  (exists p2, p = f1 ++ p2 /\ f2 = p2 ++ q).
Proof.
  intros Heq Hq. apply app_eq_app in Heq as [l [[-> ->]|[-> ->]]].
  - right. eauto.
  - destruct l as [|c l];
      [right; exists []; split; [now rewrite !app_nil_r|reflexivity]|].
    left. exists (c :: l). split; [discriminate|reflexivity].
Qed.

Lemma readLine_cut s line rest p q :
  readLine s = Ok line rest -> s = p ++ q ++ rest -> q <> [] ->
  readLine p = Fail EOF.
Proof.
  intros [-> Hl]%readLine_Ok Heq Hq. apply readLine_no_LF.
  rewrite !app_assoc in Heq. apply app_inv_tail in Heq.
  destruct (exists_last Hq) as (q' & c & ->).
  change CRLF with ([CR] ++ [LF]) in Heq. rewrite !app_assoc in Heq.
  apply app_inj_tail in Heq as [Heq _].
  intros Hin. assert (LF ∈ line ++ [CR]) as Hin'
    by (rewrite Heq; apply elem_of_app; now left).
  apply elem_of_app in Hin' as [?|Hcr]; [contradiction|].
  apply list_elem_of_singleton in Hcr. discriminate.
Qed.

Lemma readInteger_cut s i rest p q :
  readInteger s = Ok i rest -> s = p ++ q ++ rest -> q <> [] ->
  readInteger p = Fail EOF.
Proof.
  unfold readInteger. intros H Heq Hq.
  destruct (readLine s) as [line r| |] eqn:E; cbn [bind] in H;
    try discriminate.
  destruct (ParseInt line); [|discriminate]. injection H as <- <-.
  now rewrite (readLine_cut _ _ _ _ _ E Heq Hq).
Qed.

Lemma readBulkString_cut s b rest p q :
  readBulkString s = Ok b rest -> s = p ++ q ++ rest -> q <> [] ->
  exists e, readBulkString p = Fail e /\ truncated e.
Proof.
  unfold readBulkString. intros H Heq Hq.
  destruct (readInteger s) as [len r| |] eqn:E; cbn [bind] in H;
    try discriminate.
  destruct (Z.eqb_spec len (-1)) as [->|Hlen].
  { injection H as <- <-. rewrite (readInteger_cut _ _ _ _ _ E Heq Hq).
    exists EOF. split; [reflexivity|now left]. }
  pose proof E as (hd & -> & Hhd & Hre)%readInteger_frame.
  destruct (make_panics byte_size (wrap64 (len + 2))) eqn:Hmake;
    [discriminate|].
  pose proof (proj1 (make_panics_false _ _) Hmake) as [Hn _].
  destruct (ReadFull (wrap64 (len + 2)) r) as [buf r'| |] eqn:EF;
    cbn [bind] in H; try discriminate.
  pose proof EF as [-> Hfull]%ReadFull_frame; [|assumption].
  assert (Z.of_nat (length buf) = wrap64 (len + 2)) as Hbuf.
  { unfold ReadFull in EF.
    destruct (Z.ltb_spec (Z.of_nat (length (buf ++ r'))) (wrap64 (len + 2)));
      [destruct (buf ++ r'); discriminate|].
    injection EF as EF _. rewrite <- EF at 1. rewrite length_take_le; lia. }
  destruct (HasSuffix buf CRLF); cbn [negb] in H; [|discriminate].
  unfold slice_to in H. destruct (_ || _); [discriminate|].
  injection H as <- <-.
  rewrite !app_assoc in Heq. apply app_inv_tail in Heq. symmetry in Heq.
  apply cut_cases in Heq as [(q1 & Hq1 & ->)|(p2 & -> & ->)]; [| |assumption].
  - rewrite (readInteger_cut _ _ _ p q1 E); [| |assumption].
    + exists EOF. split; [reflexivity|now left].
    + now rewrite <- !app_assoc.
  - rewrite Hre. cbn [bind]. destruct (Z.eqb_spec len (-1)); [contradiction|].
    rewrite Hmake.
    unfold ReadFull. rewrite length_app in Hbuf.
    assert (0 < length q) by (destruct q; [congruence|cbn [length]; lia]).
    destruct (Z.ltb_spec (Z.of_nat (length p2)) (wrap64 (len + 2))); [|lia].
    destruct p2; eexists; (split; [reflexivity|]); [now left|now right].
Qed.

Lemma cut_object_step s :
  (forall s', length s' < length s -> cut_loop s') -> cut_object s.
Proof.
  intros IH x rest p q H Heq Hq.
  destruct p as [|typ p1].
  { exists EOF. split; [reflexivity|now left]. }
  pose proof H as H0. rewrite ReadObject_eq in H. unfold ReadObject_body in H.
  destruct s as [|typ' s1]; [discriminate|]. cbn [app] in Heq.
  injection Heq as -> Heq. cbn [ReadByte obind] in H.
  rewrite ReadObject_eq. unfold ReadObject_body. cbn [ReadByte obind].
  destruct (Ascii.eqb typ SimpleString).
  { injection H as H. destruct (readLine s1) as [a r| |] eqn:E;
      cbn [bind] in H; try discriminate. injection H as <- <-.
    rewrite (readLine_cut _ _ _ _ _ E Heq Hq).
    exists EOF. split; [reflexivity|now left]. }
  destruct (Ascii.eqb typ Error).
  { injection H as H. destruct (readLine s1) as [a r| |] eqn:E;
      cbn [bind] in H; try discriminate. injection H as <- <-.
    rewrite (readLine_cut _ _ _ _ _ E Heq Hq).
    exists EOF. split; [reflexivity|now left]. }
  destruct (Ascii.eqb typ Integer).
  { injection H as H. destruct (readInteger s1) as [a r| |] eqn:E;
      cbn [bind] in H; try discriminate. injection H as <- <-.
    rewrite (readInteger_cut _ _ _ _ _ E Heq Hq).
    exists EOF. split; [reflexivity|now left]. }
  destruct (Ascii.eqb typ BulkString).
  { injection H as H. destruct (readBulkString s1) as [a r| |] eqn:E;
      cbn [bind] in H; try discriminate. injection H as <- <-.
    destruct (readBulkString_cut _ _ _ _ _ E Heq Hq) as (e & -> & He).
    exists e. split; [reflexivity|assumption]. }
  destruct (Ascii.eqb typ Array); [|discriminate].
  rewrite readArray_eq in H |- *. unfold readArray_body in H |- *.
  destruct (readInteger s1) as [len r| |] eqn:E; cbn [obind] in H;
    try discriminate.
  destruct (Z.eqb_spec len (-1)) as [->|Hlen].
  { injection H as <- <-. rewrite (readInteger_cut _ _ _ _ _ E Heq Hq).
    exists EOF. split; [reflexivity|now left]. }
  destruct (make_panics interface_size len) eqn:Hmake; [discriminate|].
  pose proof (proj1 (make_panics_false _ _) Hmake) as [Hpos _].
  pose proof (readInteger_shrinks _ _ _ E) as Hshrink.
  pose proof E as (hd & Hs1 & Hhd & Hre)%readInteger_frame.
  destruct (readArray_loop len r) as [[xs r'| |]|] eqn:EL; cbn [obind] in H;
    try discriminate.
  injection H as <- <-.
  pose proof (proj2 (framed_all (S (length r)) r ltac:(lia)) _ _ _ EL)
    as (body & Hr & _).
  assert (p1 ++ q = hd ++ body) as Hsplit.
  { apply (app_inv_tail r'). rewrite <- !app_assoc, <- Hr, <- Hs1.
    now symmetry. }
  apply cut_cases in Hsplit as [(q1 & Hq1 & Hhd1)|(p2 & -> & Hbody)];
    [| |assumption].
  - rewrite (readInteger_cut _ _ _ p1 q1 E); [| |assumption].
    + exists EOF. split; [reflexivity|now left].
    + rewrite Hs1, Hhd1. now rewrite <- !app_assoc.
  - rewrite Hre. cbn [obind]. destruct (Z.eqb_spec len (-1)); [contradiction|].
    rewrite Hmake.
    destruct (IH r ltac:(cbn [length]; lia) len xs r' p2 q EL) as (e & -> & He);
      [now rewrite Hr, Hbody, <- app_assoc|assumption|].
    exists e. split; [reflexivity|assumption].
Qed.

Lemma cut_loop_step s :
  cut_object s -> (forall s', length s' < length s -> cut_loop s') ->
  cut_loop s.
Proof.
  intros HO IH n xs rest p q H Heq Hq.
  rewrite readArray_loop_eq in H. unfold readArray_loop_body in H.
  rewrite readArray_loop_eq. unfold readArray_loop_body.
  destruct (Z.leb_spec n 0) as [Hn|Hn].
  { injection H as <- ->. exfalso.
    assert (length (p ++ q ++ rest) = length rest) as Hlen by now rewrite <- Heq.
    rewrite !length_app in Hlen. destruct q; [congruence|].
    cbn [length] in Hlen. lia. }
  destruct (ReadObject s) as [[x r| |]|] eqn:EO; cbn [obind] in H;
    try discriminate.
  pose proof (ReadObject_shrinks _ _ _ EO) as Hshrink.
  pose proof (proj1 (framed_all (S (length s)) s ltac:(lia)) _ _ EO)
    as (f1 & Hs & _ & Hre1).
  destruct (readArray_loop (n - 1) r) as [[ys r'| |]|] eqn:EL;
    cbn [obind] in H; try discriminate.
  injection H as <- <-.
  pose proof (proj2 (framed_all (S (length r)) r ltac:(lia)) _ _ _ EL)
    as (f2 & Hr & _).
  assert (p ++ q = f1 ++ f2) as Hsplit.
  { apply (app_inv_tail r'). rewrite <- !app_assoc, <- Hr, <- Hs.
    now symmetry. }
  apply cut_cases in Hsplit as [(q1 & Hq1 & Hf1)|(p2 & -> & Hf2)];
    [| |assumption].
  - destruct (HO x r p q1 EO) as (e & -> & He);
      [now rewrite Hs, Hf1, <- app_assoc|assumption|].
    exists e. split; [reflexivity|assumption].
  - rewrite Hre1. cbn [obind].
    destruct (IH r Hshrink (n - 1)%Z ys r' p2 q EL) as (e & -> & He);
      [now rewrite Hr, Hf2, <- app_assoc|assumption|].
    exists e. split; [reflexivity|assumption].
Qed.

Lemma cut_all k : forall s, length s < k -> cut_object s /\ cut_loop s.
Proof.
  induction k as [|k IH]; intros s Hs; [lia|].
  assert (forall s', length s' < length s -> cut_loop s') as IHL
    by (intros s' Hs'; apply IH; lia).
  pose proof (cut_object_step s IHL) as HO.
  split; [assumption|]. now apply cut_loop_step.
Qed.

(** X9. A stream that stops inside a frame is never taken for a value, nor
    for a frame of invalid format: when [ReadObject] returns a value from
    [s], it fails on every stream that holds only a proper part of the
    frame consumed, with [io.EOF] or [io.ErrUnexpectedEOF]. *)
Theorem ReadObject_cut_short s x rest p q :
  ReadObject s = Some (Ok x rest) -> s = p ++ q ++ rest -> q <> [] ->
  exists e, ReadObject p = Some (Fail e) /\ truncated e.
Proof. apply (cut_all (S (length s)) s). lia. Qed.

Lemma ReadObject_cut_short_witness :
  exists e,
    ReadObject (B "*2" ++ CRLF ++ B "$3" ++ CRLF ++ B "ab") = Some (Fail e)
    /\ truncated e.
Proof.
  apply (ReadObject_cut_short
           (B "*2" ++ CRLF ++ B "$3" ++ CRLF ++ B "abc" ++ CRLF ++ B ":1" ++ CRLF
            ++ B "+next")
           (OSlice [OString (B "abc"); OInt64 1]) (B "+next")
           (B "*2" ++ CRLF ++ B "$3" ++ CRLF ++ B "ab")
           (B "c" ++ CRLF ++ B ":1" ++ CRLF));
    [reflexivity|reflexivity|discriminate].
Defined.

End resp_more.

(** * Further properties of the registry *)

Module command_more.
Import command command_facts.

Section RegistryMore.

Variable HandlerFunc : Type.

Implicit Types (e : Extension HandlerFunc) (c : Command HandlerFunc).
Implicit Types (cmd : option (Command HandlerFunc)) (name : string).

(** X10. Registrations of valid commands with different names do not
    depend on their order. *)
Theorem AddCommand_commute e c1 c2 :
  valid c1 = true -> valid c2 = true -> Name c1 <> Name c2 ->
  fst (AddCommand (fst (AddCommand e (Some c1))) (Some c2))
  = fst (AddCommand (fst (AddCommand e (Some c2))) (Some c1)).
Proof.
  intros H1 H2 Hne. rewrite !AddCommand_valid by assumption.
  cbn [fst ExtensionName commands]. f_equal. now apply insert_insert_ne.
Qed.

(** X11. The registry only grows: after any further calls of [AddCommand]
    a name has an entry exactly when it had one before or is the name of a
    valid command among the arguments of these calls, and the entry of a
    name that had one is the old command or such an argument. *)
Theorem registry_only_grows e history name :
  (is_Some (commands (register_all history e) !! name) <->
   is_Some (commands e !! name)
   \/ exists c, In (Some c) history /\ valid c = true /\ Name c = name) /\
  (forall c, GetCommand e name = (Some c, None) ->
     exists c', GetCommand (register_all history e) name = (Some c', None)
       /\ (c' = c \/ (In (Some c') history /\ valid c' = true
                      /\ Name c' = name))).
Proof.
  revert e. induction history as [|cmd history IH]; intros e.
  { split.
    - cbn. split; [now left|]. now intros [?|(c & [] & _)].
    - intros c Hc. exists c. split; [assumption|now left]. }
  change (register_all (cmd :: history) e)
    with (register_all history (fst (AddCommand e cmd))).
  destruct (IH (fst (AddCommand e cmd))) as [IHdom IHget]. split.
  - rewrite IHdom, AddCommand_lookup. clear IHdom IHget. split.
    + intros [Hhere|(c & Hin & Hv & Hn)].
      * destruct cmd as [c0|]; [|now left].
        destruct (valid c0) eqn:Hv0; cbn [andb] in Hhere; [|now left].
        destruct (String.eqb_spec (Name c0) name) as [Hn0|]; [|now left].
        right. exists c0. split; [now left|]. now split.
      * right. exists c. split; [now right|]. now split.
    + intros [Hhere|(c & [Hin|Hin] & Hv & Hn)].
      * left. destruct cmd as [c0|]; [|assumption].
        destruct (valid c0 && String.eqb (Name c0) name); eauto.
      * left. subst cmd. rewrite Hv. cbn [andb].
        apply String.eqb_eq in Hn. rewrite Hn. eauto.
      * right. eauto.
  - intros c Hc. rewrite GetCommand_lookup in Hc.
    destruct (commands e !! name) as [c0|] eqn:E; [|discriminate].
    injection Hc as ->.
    assert (exists c1, GetCommand (fst (AddCommand e cmd)) name = (Some c1, None)
                       /\ (c1 = c \/ (cmd = Some c1 /\ valid c1 = true
                                      /\ Name c1 = name))) as (c1 & Hc1 & Hor).
    { rewrite GetCommand_lookup, AddCommand_lookup.
      destruct cmd as [c0|]; [|rewrite E; eauto].
      destruct (valid c0) eqn:Hv0; cbn [andb]; [|rewrite E; eauto].
      destruct (String.eqb_spec (Name c0) name); [|rewrite E; eauto].
      exists c0. split; [reflexivity|]. right. now repeat split. }
    destruct (IHget c1 Hc1) as (c' & Hget & Hor').
    exists c'. split; [assumption|].
    destruct Hor' as [->|(Hin & Hv & Hn)].
    + destruct Hor as [->|(-> & Hv & Hn)]; [now left|].
      right. split; [now left|]. now split.
    + right. split; [now right|]. now split.
Qed.

(** X12. A command fresh from [New] has no handler: [AddCommand] refuses
    it, whatever its name, and leaves the registry as it was; with a name
    that is not empty it is accepted once a handler is set. *)
Theorem New_needs_handler e name :
  (exists err, AddCommand e (Some (New name)) = (e, Some err)) /\
  (forall h, name <> EmptyString ->
     let c := {| Name := Name (@New HandlerFunc name);
                 Handler := Some h;
                 MinArgs := MinArgs (@New HandlerFunc name);
                 MaxArgs := MaxArgs (@New HandlerFunc name);
                 Description := Description (@New HandlerFunc name) |} in
     exists e', AddCommand e (Some c) = (e', None)
       /\ GetCommand e' name = (Some c, None)
       /\ MinArgs c = 0%Z /\ MaxArgs c = (-1)%Z).
Proof.
  split.
  - unfold AddCommand, New. cbn [Name Handler].
    destruct (bool_decide (name = EmptyString)); eauto.
  - intros h Hname c. eexists. split.
    + apply AddCommand_valid. apply valid_true. cbn. eauto.
    + rewrite GetCommand_lookup. cbn [commands Name New c].
      rewrite lookup_insert_eq. auto.
Qed.

End RegistryMore.

Lemma AddCommand_commute_witness :
  fst (AddCommand (fst (AddCommand (NewExtension "hello-world")
                          (Some hello_cmd))) (Some echo_cmd))
  = fst (AddCommand (fst (AddCommand (NewExtension "hello-world")
                            (Some echo_cmd))) (Some hello_cmd)).
Proof.
  apply (AddCommand_commute (list string -> string)); [reflexivity..|].
  discriminate.
Defined.

Lemma registry_only_grows_witness :
  exists c',
    GetCommand (register_all [Some echo_cmd; None; Some echo_cmd']
                  (fst (AddCommand (NewExtension "hello-world")
                          (Some hello_cmd)))) "HELLO.WORLD"
    = (Some c', None)
    /\ (c' = hello_cmd
        \/ (In (Some c') [Some echo_cmd; None; Some echo_cmd']
            /\ valid c' = true /\ Name c' = "HELLO.WORLD")).
Proof.
  apply (registry_only_grows (list string -> string)). reflexivity.
Defined.

Lemma New_needs_handler_witness :
  exists e',
    AddCommand (NewExtension "hello-world")
      (Some {| Name := "HELLO.WORLD"; Handler := Some reply_hello;
               MinArgs := 0; MaxArgs := -1; Description := EmptyString |})
    = (e', None)
    /\ GetCommand e' "HELLO.WORLD"
       = (Some {| Name := "HELLO.WORLD"; Handler := Some reply_hello;
                  MinArgs := 0; MaxArgs := -1; Description := EmptyString |},
          None)
    /\ 0%Z = 0%Z /\ (-1)%Z = (-1)%Z.
Proof.
  apply (proj2 (New_needs_handler (list string -> string)
                  (NewExtension "hello-world") "HELLO.WORLD") reply_hello).
  discriminate.
Defined.

End command_more.

(** * Properties of the connection loop *)

Module server_facts.
Import resp resp_facts resp_more server.

Section ServerFacts.

Variable Store : Type.

Implicit Types (ext : command.Extension (HandlerFunc Store)).
Implicit Types (rConn : redisConn) (store : Store) (input : bytes).

Lemma handleConnection_fuel_any fuel1 : forall fuel2 ext input rConn store,
  length input < fuel1 -> length input < fuel2 ->
  handleConnection_fuel fuel1 ext input rConn store
  = handleConnection_fuel fuel2 ext input rConn store.
Proof.
  induction fuel1 as [|fuel1 IH]; intros [|fuel2] ext input rConn store H1 H2;
    try lia.
  cbn [handleConnection_fuel].
  destruct (ReadObject input) as [[obj rest| |]|] eqn:E; try reflexivity.
  apply ReadObject_shrinks in E.
  destruct (dispatch ext obj rConn store) as [[rConn' store']|];
    [|reflexivity].
  apply IH; lia.
Qed.

(** The loop satisfies the equation of the source. *)
Lemma handleConnection_eq ext input rConn store :
  handleConnection ext input rConn store
  = match ReadObject input with
    | None => None
    | Some (Panic _) => Some Panicked
    | Some (Fail err) =>
        Some (Returned (match err with EOF => None | _ => Some err end)
                rConn store)
    | Some (Ok obj rest) =>
        match dispatch ext obj rConn store with
        | None => Some Panicked
        | Some (rConn', store') => handleConnection ext rest rConn' store'
        end
    end.
Proof.
  unfold handleConnection at 1. cbn [handleConnection_fuel].
  destruct (ReadObject input) as [[obj rest| |]|] eqn:E; try reflexivity.
  apply ReadObject_shrinks in E.
  destruct (dispatch ext obj rConn store) as [[rConn' store']|];
    [|reflexivity].
  apply handleConnection_fuel_any; lia.
Qed.

Lemma ReadObject_bulk arg rest :
  (Z.of_nat (length arg) + 2 <= maxAlloc)%Z ->
  ReadObject (bulk arg ++ rest) = Some (Ok (OString arg) rest).
Proof.
  intros Hlen. unfold bulk. rewrite <- !app_assoc. cbn [app].
  rewrite ReadObject_BulkString.
  rewrite (readBulkString_payload _ (Z.of_nat (length arg)) arg rest);
    [reflexivity| |reflexivity|assumption].
  apply readInteger_fmt_d. unfold MinInt64, MaxInt64, maxAlloc in *. lia.
Qed.

Lemma reads_bulks args rest :
  forallb (fun arg => (Z.of_nat (length arg) + 2 <=? maxAlloc)%Z) args = true ->
  reads (concat (map bulk args) ++ rest) (map OString args) rest.
Proof.
  induction args as [|arg args IH]; cbn [forallb map concat]; intros Hfit.
  - constructor.
  - apply andb_true_iff in Hfit as [Harg%Z.leb_le Hargs].
    econstructor; [|exact (IH Hargs)]. rewrite <- app_assoc.
    now apply ReadObject_bulk.
Qed.

Lemma ReadObject_request args rest :
  fits args = true ->
  ReadObject (request args ++ rest) = Some (Ok (OSlice (map OString args)) rest).
Proof.
  unfold fits, request. intros [Hn%Z.leb_le Hargs]%andb_true_iff.
  rewrite <- !app_assoc. cbn [app]. rewrite ReadObject_Array, readArray_eq.
  unfold readArray_body.
  rewrite readInteger_fmt_d
    by (unfold MinInt64, MaxInt64, maxAlloc, interface_size in *; lia).
  cbn [obind]. destruct (Z.eqb_spec (Z.of_nat (length args)) (-1)); [lia|].
  rewrite (proj2 (make_panics_false _ _)) by (split; [lia|assumption]).
  pose proof (readArray_loop_reads _ _ _ (reads_bulks args rest Hargs))
    as Hloop.
  rewrite length_map in Hloop. now rewrite Hloop.
Qed.

Lemma Sprint_strings args : map Sprint (map OString args) = args.
Proof. induction args as [|a args IH]; cbn [map Sprint]; congruence. Qed.

Lemma WriteError_with_error text rConn :
  fst (WriteError (command.errors_New text) rConn) = with_error text rConn.
Proof. reflexivity. Qed.

Lemma handleConnection_request ext name args more rConn store :
  fits (name :: args) = true ->
  handleConnection ext (request (name :: args) ++ more) rConn store
  = match dispatch ext (OSlice (map OString (name :: args))) rConn store with
    | None => Some Panicked
    | Some (rConn', store') => handleConnection ext more rConn' store'
    end.
Proof.
  intros Hfit. rewrite handleConnection_eq.
  now rewrite ReadObject_request by assumption.
Qed.

Lemma dispatch_registered ext name args rConn store cmd handler :
  command.GetCommand ext (String.string_of_list_ascii name) = (Some cmd, None) ->
  command.Handler cmd = Some handler ->
  dispatch ext (OSlice (map OString (name :: args))) rConn store
  = match handler {| Args := name :: args; Conn := rConn |} store with
    | (store', ctx', Some err) =>
        Some (fst (WriteError err (Conn ctx')), store')
    | (store', ctx', None) => Some (Conn ctx', store')
    end.
Proof.
  intros Hget Hh. cbn [map dispatch]. rewrite Hget, Hh.
  change (Sprint (OString name) :: map Sprint (map OString args))
    with (map Sprint (map OString (name :: args))).
  now rewrite Sprint_strings.
Qed.

Lemma dispatch_unknown ext name args rConn store :
  command.commands ext !! String.string_of_list_ascii name = None ->
  dispatch ext (OSlice (map OString (name :: args))) rConn store
  = Some (with_error "command not found" rConn, store).
Proof.
  intros Hnone. cbn [map dispatch]. unfold command.GetCommand.
  now rewrite Hnone.
Qed.

(** X13. A request whose command is registered is dispatched to its
    handler: the handler gets the name and the arguments as the client sent
    them, the connection and the store; the loop goes on with the next
    request on the connection that the handler leaves, after the error
    reply when the handler returns an error, and with the store that the
    handler leaves. *)
Theorem handleConnection_dispatches ext name args more rConn store cmd handler :
  fits (name :: args) = true ->
  command.GetCommand ext (String.string_of_list_ascii name) = (Some cmd, None) ->
  command.Handler cmd = Some handler ->
  handleConnection ext (request (name :: args) ++ more) rConn store
  = match handler {| Args := name :: args; Conn := rConn |} store with
    | (store', ctx', Some err) =>
        handleConnection ext more (fst (WriteError err (Conn ctx'))) store'
    | (store', ctx', None) => handleConnection ext more (Conn ctx') store'
    end.
Proof.
  intros Hfit Hget Hh. rewrite handleConnection_request by assumption.
  rewrite (dispatch_registered _ _ _ _ _ _ _ Hget Hh).
  now destruct (handler {| Args := name :: args; Conn := rConn |} store)
    as [[store' ctx'] [err|]].
Qed.

(** X14. A request for a name that has no entry in the registry, in these
    very letters, is answered with the error [command not found]; no handler
    runs, the store is as before, and the loop goes on with the next
    request. *)
Theorem handleConnection_unknown_command ext name args more rConn store :
  fits (name :: args) = true ->
  command.commands ext !! String.string_of_list_ascii name = None ->
  handleConnection ext (request (name :: args) ++ more) rConn store
  = handleConnection ext more (with_error "command not found" rConn) store.
Proof.
  intros Hfit Hnone. rewrite handleConnection_request by assumption.
  now rewrite dispatch_unknown.
Qed.

Lemma ReadObject_error_frame text rest :
  LF ∉ text ->
  ReadObject ([Error] ++ text ++ CRLF ++ rest) = Some (Ok (OError text) rest).
Proof.
  intros Htext. cbn [app]. now rewrite ReadObject_Error, readLine_app.
Qed.

(** X15. A value that is not a request is answered with one error reply
    and the loop goes on: [invalid command format] for a value that is not
    an array, [empty command] for the null and the empty array, [invalid
    command name] for an array whose first element is not a string; the
    store is as before, and the reply is a frame that reads back as an error
    with this text. *)
Theorem handleConnection_refuses ext v text more rConn store :
  wire_safe v = true -> refusal v = Some text ->
  handleConnection ext (encoded v ++ more) rConn store
    = handleConnection ext more (with_error text rConn) store /\
  forall rest,
    ReadObject ([Error] ++ String.list_ascii_of_string text ++ CRLF ++ rest)
    = Some (Ok (OError (String.list_ascii_of_string text)) rest).
Proof.
  intros Hsafe Hrefusal. split.
  - rewrite handleConnection_eq, encoded_wire.
    rewrite (ReadObject_wire v Hsafe more).
    destruct v as [s|msg|i|s| |[|[s|msg|i|s| |elems] vs]];
      cbn [refusal] in Hrefusal; try discriminate;
      injection Hrefusal as <-; reflexivity.
  - intros rest. apply ReadObject_error_frame.
    destruct v as [s|msg|i|s| |[|[s|msg|i|s| |elems] vs]];
      cbn [refusal] in Hrefusal; try discriminate;
      injection Hrefusal as <-; now apply (bool_decide_unpack _).
Qed.

Lemma handleConnection_fuel_total fuel : forall ext input rConn store,
  length input < fuel ->
  is_Some (handleConnection_fuel fuel ext input rConn store).
Proof.
  induction fuel as [|fuel IH]; intros ext input rConn store Hfuel; [lia|].
  cbn [handleConnection_fuel].
  destruct (ReadObject_total input) as [[obj rest| |] E]; rewrite E;
    try (eexists; reflexivity).
  apply ReadObject_shrinks in E.
  destruct (dispatch ext obj rConn store) as [[rConn' store']|];
    [|eexists; reflexivity].
  apply IH. lia.
Qed.

(** X16. The loop ends on every input, as long as the handlers return: a
    turn of the loop that does not end it consumes at least one byte. When
    the input ends between two requests the loop returns without a log and
    without a reply; when a frame fails to decode it returns with the error
    logged and no reply to the peer. *)
Theorem handleConnection_ends ext input rConn store :
  is_Some (handleConnection ext input rConn store) /\
  handleConnection ext [] rConn store = Some (Returned None rConn store) /\
  (forall err, ReadObject input = Some (Fail err) -> err <> EOF ->
     handleConnection ext input rConn store
     = Some (Returned (Some err) rConn store)).
Proof.
  split; [apply handleConnection_fuel_total; lia|].
  split; [reflexivity|].
  intros err Herr Hne. rewrite handleConnection_eq, Herr.
  now destruct err.
Qed.

Lemma reachable_well_formed ext : command.reachable ext -> command.well_formed ext.
Proof.
  induction 1; [apply command_facts.well_formed_NewExtension|].
  now apply command_facts.well_formed_AddCommand.
Qed.

Lemma dispatch_is_Some ext obj rConn store :
  command.reachable ext -> is_Some (dispatch ext obj rConn store).
Proof.
  intros Hwf%reachable_well_formed.
  destruct obj as [s|msg|i| |[|first cmdArray]]; try (eexists; reflexivity).
  destruct first as [cmdName|msg|i| |elems]; try (eexists; reflexivity).
  cbn [dispatch]. rewrite command_facts.GetCommand_lookup.
  destruct (command.commands ext !! String.string_of_list_ascii cmdName)
    as [cmd|] eqn:E; [|eexists; reflexivity].
  apply Hwf in E as (_ & _ & [handler ->]).
  destruct (handler _ store) as [[store' ctx'] [err|]]; eexists; reflexivity.
Qed.

Lemma handleConnection_fuel_panic fuel : forall ext input rConn store,
  command.reachable ext ->
  handleConnection_fuel fuel ext input rConn store = Some Panicked ->
  exists consumed rest p,
    input = consumed ++ rest /\ ReadObject rest = Some (Panic p).
Proof.
  induction fuel as [|fuel IH]; intros ext input rConn store Hext H;
    [discriminate|].
  cbn [handleConnection_fuel] in H.
  destruct (ReadObject input) as [[obj rest| |]|] eqn:E; try discriminate.
  - destruct (dispatch_is_Some ext obj rConn store Hext) as [[rConn' store'] Hd].
    rewrite Hd in H. apply IH in H as (consumed & rest' & p & -> & Hp);
      [|assumption].
    pose proof (proj1 (framed_all (S (length input)) input ltac:(lia)) _ _ E)
      as (frame & -> & _).
    exists (frame ++ consumed), rest', p. now rewrite <- app_assoc.
  - exists [], input, p. split; [reflexivity|assumption].
Qed.

(** X17. With a registry built by [NewExtension] and [AddCommand] the loop
    never calls a nil handler: it can only panic where [ReadObject] panics
    on what is left of the input. *)
Theorem handleConnection_panics_on_read_only ext input rConn store :
  command.reachable ext ->
  handleConnection ext input rConn store = Some Panicked ->
  exists consumed rest p,
    input = consumed ++ rest /\ ReadObject rest = Some (Panic p).
Proof. apply handleConnection_fuel_panic. Qed.

End ServerFacts.

Lemma handleConnection_dispatches_witness :
  handleConnection helloExtension (request [B "HELLO.WORLD"; B "Bob"]) 
    {| writer := NewWriter |} tt
  = match helloHandler {| Args := [B "HELLO.WORLD"; B "Bob"];
                          Conn := {| writer := NewWriter |} |} tt with
    | (store', ctx', Some err) =>
        handleConnection helloExtension [] (fst (WriteError err (Conn ctx')))
          store'
    | (store', ctx', None) => handleConnection helloExtension [] (Conn ctx') store'
    end.
Proof.
  pose proof (handleConnection_dispatches unit helloExtension (B "HELLO.WORLD")
                [B "Bob"] [] {| writer := NewWriter |} tt helloCmd helloHandler
                eq_refl eq_refl eq_refl) as H.
  rewrite app_nil_r in H. exact H.
Defined.

Lemma handleConnection_unknown_command_witness :
  handleConnection helloExtension (request [B "hello.world"] ++ B "+next")
    {| writer := NewWriter |} tt
  = handleConnection helloExtension (B "+next")
      (with_error "command not found" {| writer := NewWriter |}) tt.
Proof.
  apply (handleConnection_unknown_command unit helloExtension (B "hello.world")
           [] (B "+next") {| writer := NewWriter |} tt); reflexivity.
Defined.

Lemma handleConnection_refuses_witness :
  handleConnection helloExtension (encoded (VArray [VInteger 1]) ++ B "+next")
    {| writer := NewWriter |} tt
  = handleConnection helloExtension (B "+next")
      (with_error "invalid command name" {| writer := NewWriter |}) tt.
Proof.
  apply (handleConnection_refuses unit helloExtension (VArray [VInteger 1])
           "invalid command name" (B "+next") {| writer := NewWriter |} tt);
    reflexivity.
Defined.

Lemma handleConnection_ends_witness :
  handleConnection helloExtension (B "?") {| writer := NewWriter |} tt
  = Some (Returned (Some (UnknownTypeByte "?")) {| writer := NewWriter |} tt).
Proof.
  apply (handleConnection_ends unit helloExtension (B "?")
           {| writer := NewWriter |} tt); [reflexivity|discriminate].
Defined.

Lemma helloExtension_reachable : command.reachable helloExtension.
Proof. apply command.reachable_add. apply command.reachable_new. Qed.

Lemma handleConnection_panics_on_read_only_witness :
  exists consumed rest p,
    request [B "HELLO.WORLD"] ++ B "$-3" ++ CRLF = consumed ++ rest
    /\ ReadObject rest = Some (Panic p).
Proof.
  apply (handleConnection_panics_on_read_only unit helloExtension
           (request [B "HELLO.WORLD"] ++ B "$-3" ++ CRLF)
           {| writer := NewWriter |} tt helloExtension_reachable).
  reflexivity.
Defined.

(** ** The hello server *)

Lemma Reply_with_bulk s (ctx : Context redisConn) :
  s <> [] ->
  Reply s ctx = ({| Args := Args ctx; Conn := with_bulk s (Conn ctx) |}, None).
Proof.
  intros Hs. unfold Reply, on_conn. cbn [WriteString redisConn_RedisConn].
  unfold written, WriteBulkString.
  now rewrite bool_decide_eq_false_2 by assumption.
Qed.

(** X18. The hello server answers [HELLO.WORLD] with the bulk string
    [Hello, World!], and [HELLO.WORLD] with an argument with [Hello, ], the
    argument and [!], whatever bytes the argument holds, as a frame that
    reads back as this string; the same name in lower case is not found. In
    each case the loop goes on with the next request. *)
Theorem hello_server_greets who more rConn :
  (Z.of_nat (length who) + 10 <= maxAlloc)%Z ->
  handleConnection helloExtension (request [B "HELLO.WORLD"] ++ more) rConn tt
    = handleConnection helloExtension more
        (with_bulk (B "Hello, World!") rConn) tt /\
  handleConnection helloExtension (request [B "HELLO.WORLD"; who] ++ more)
      rConn tt
    = handleConnection helloExtension more
        (with_bulk (B "Hello, " ++ who ++ B "!") rConn) tt /\
  handleConnection helloExtension (request [B "hello.world"; who] ++ more)
      rConn tt
    = handleConnection helloExtension more
        (with_error "command not found" rConn) tt /\
  forall rest,
    ReadObject (bulk (B "Hello, " ++ who ++ B "!") ++ rest)
    = Some (Ok (OString (B "Hello, " ++ who ++ B "!")) rest).
Proof.
  intros Hlen.
  assert (fits [B "HELLO.WORLD"; who] = true
          /\ fits [B "hello.world"; who] = true) as [Hfit Hfit'].
  { unfold fits. cbn [forallb length]. unfold maxAlloc in *.
    destruct (Z.leb_spec (Z.of_nat (length who) + 2) 281474976710656);
      [split; reflexivity|lia]. }
  split; [|split; [|split]].
  - rewrite handleConnection_request by reflexivity.
    rewrite (dispatch_registered unit helloExtension (B "HELLO.WORLD") [] rConn
               tt helloCmd helloHandler eq_refl eq_refl).
    unfold helloHandler. cbn [Args length Nat.ltb Nat.leb].
    now rewrite Reply_with_bulk by discriminate.
  - rewrite handleConnection_request by assumption.
    rewrite (dispatch_registered unit helloExtension (B "HELLO.WORLD") [who]
               rConn tt helloCmd helloHandler eq_refl eq_refl).
    unfold helloHandler. cbn [Args length Nat.ltb Nat.leb nth].
    now rewrite Reply_with_bulk by discriminate.
  - rewrite handleConnection_request by assumption.
    now rewrite dispatch_unknown by reflexivity.
  - intros rest. apply ReadObject_bulk. rewrite !length_app. cbn [length B].
    cbn. lia.
Qed.

Lemma hello_server_greets_witness :
  handleConnection helloExtension (request [B "HELLO.WORLD"; B "Bob"])
    {| writer := NewWriter |} tt
  = Some (Returned None
            {| writer := {| sink := B "$11" ++ CRLF ++ B "Hello, Bob!" ++ CRLF |} |}
            tt).
Proof.
  pose proof (hello_server_greets (B "Bob") [] {| writer := NewWriter |}
                ltac:(cbn; unfold maxAlloc; lia)) as (_ & H & _).
  rewrite app_nil_r in H. exact H.
Defined.

(** ** Replies *)



End server_facts.

(** * Properties of the rate limiter *)

Module ratelimiter_facts.
Import resp ratelimiter.

Lemma Sub_exact t u :
  (0 <= u <= t)%Z -> (t <= MaxInt64)%Z -> Sub t u = (t - u)%Z.
Proof.
  unfold Sub, wrap64, MaxInt64. intros Hu Ht.
  replace ((t - u + 2 ^ 63) mod 2 ^ 64 - 2 ^ 63)%Z with (t - u)%Z
    by (rewrite Z.mod_small; lia).
  cbv zeta. destruct (Z.ltb_spec (t - u) 0); [lia|]. cbn [andb].
  destruct (Z.ltb_spec 0 (t - u)); [|reflexivity].
  destruct (Z.ltb_spec t u); [lia|reflexivity].
Qed.

Lemma filter_filter_impl {A : Type} (p q : A -> bool) (l : list A) :
  (forall x, In x l -> p x = true -> q x = true) ->
  List.filter p (List.filter q l) = List.filter p l.
Proof.
  induction l as [|x l IH]; intros H; [reflexivity|]. cbn [List.filter].
  assert (List.filter p (List.filter q l) = List.filter p l) as IH'
    by (apply IH; intros y Hy; apply H; now right).
  destruct (q x) eqn:Hq; cbn [List.filter].
  - now rewrite IH'.
  - destruct (p x) eqn:Hp; [|assumption].
    rewrite (H x (or_introl eq_refl) Hp) in Hq. discriminate.
Qed.

Lemma filter_length_impl {A : Type} (p q : A -> bool) (l : list A) :
  (forall x, In x l -> p x = true -> q x = true) ->
  length (List.filter p l) <= length (List.filter q l).
Proof.
  induction l as [|x l IH]; intros H; [reflexivity|]. cbn [List.filter].
  assert (length (List.filter p l) <= length (List.filter q l)) as IH'
    by (apply IH; intros y Hy; apply H; now right).
  destruct (p x) eqn:Hp.
  - rewrite (H x (or_introl eq_refl) Hp). cbn [length]. lia.
  - destruct (q x); cbn [length]; lia.
Qed.

Lemma filter_windows (p : Z -> bool) (times : list Z) :
  List.filter (fun w => p (Timestamp w))
    (map (fun g => {| Timestamp := g; Count := 1 |}) times)
  = map (fun g => {| Timestamp := g; Count := 1 |}) (List.filter p times).
Proof.
  induction times as [|g times IH]; [reflexivity|]. cbn [map List.filter].
  rewrite IH. cbn [Timestamp]. now destruct (p g).
Qed.

(** The loop that adds up the counts of the windows counts the windows, as
    long as the sum fits [int64]. *)
Lemma total_counts (p : Z -> bool) (times : list Z) : forall total,
  (0 <= total)%Z -> (total + Z.of_nat (length times) <= MaxInt64)%Z ->
  fold_left
    (fun total w =>
       if p (Timestamp w) then wrap64 (total + Count w) else total)
    (map (fun g => {| Timestamp := g; Count := 1 |}) times) total
  = (total + Z.of_nat (length (List.filter p times)))%Z.
Proof.
  induction times as [|g times IH]; intros total H0 Hmax;
    cbn [map fold_left List.filter length Timestamp Count]; [lia|].
  cbn [length] in Hmax. destruct (p g).
  - assert (wrap64 (total + 1) = total + 1)%Z as ->.
    { unfold wrap64, MaxInt64 in *. rewrite Z.mod_small; lia. }
    rewrite IH by lia. cbn [length]. lia.
  - rewrite IH by lia. reflexivity.
Qed.

Lemma cleanup_lookup now key rl :
  default [] (windows (cleanup now key rl) !! key)
  = List.filter (fun w => (Sub now (Timestamp w) <? Hour)%Z)
      (default [] (windows rl !! key)).
Proof.
  unfold cleanup. destruct (windows rl !! key) as [ws|] eqn:E; cbn [default].
  - destruct (List.filter _ ws) as [|w active] eqn:Ef; cbn [length Nat.eqb].
    + cbn [windows]. now rewrite lookup_delete_eq.
    + cbn [windows]. now rewrite lookup_insert_eq.
  - now rewrite E.
Qed.

Lemma in_window_app Wd T times g :
  in_window Wd T (times ++ [g])
  = (in_window Wd T times
     + if (g <=? T)%Z && (T - g <? Wd)%Z then 1 else 0)%Z.
Proof.
  unfold in_window. rewrite List.filter_app, length_app. cbn [List.filter].
  destruct ((g <=? T)%Z && (T - g <? Wd)%Z); cbn [length]; lia.
Qed.

Lemma allow_keeps_limited key maxRequests windowSeconds T0 rl times now1 now2 :
  (0 <= windowSeconds <= 3600)%Z ->
  limited key maxRequests windowSeconds T0 rl times ->
  (T0 <= now1)%Z -> (now1 <= now2)%Z -> (now2 <= MaxInt64)%Z ->
  (Z.of_nat (length times) <= MaxInt64)%Z ->
  limited key maxRequests windowSeconds now2
    (fst (allow now1 now2 key maxRequests windowSeconds rl))
    (times ++ if snd (allow now1 now2 key maxRequests windowSeconds rl)
              then [now2] else []).
Proof.
  intros HW (HT0 & Htimes & (c & Hc & Hws) & Hlimit) H01 H12 Hmax Hlen.
  rewrite Forall_forall in Htimes.
  assert (wrap64 (windowSeconds * Second) = windowSeconds * Second)%Z as HWd.
  { unfold wrap64, Second. rewrite Z.mod_small; lia. }
  assert (windowSeconds * Second <= Hour)%Z as HWd_hour
    by (unfold Hour, Second; lia).
  (* the windows after cleanup *)
  assert (default [] (windows (cleanup now1 key rl) !! key)
          = map (fun g => {| Timestamp := g; Count := 1 |})
              (List.filter (fun g => (now1 - g <? Hour)%Z) times)) as Hclean.
  { rewrite cleanup_lookup, Hws.
    rewrite (filter_windows (fun g => (Sub now1 g <? Hour)%Z)).
    f_equal. rewrite filter_filter_impl.
    - apply List.filter_ext_in. intros g Hg. apply list_elem_of_In, Htimes in Hg.
      now rewrite Sub_exact by lia.
    - intros g Hg Hp. apply list_elem_of_In, Htimes in Hg.
      rewrite Sub_exact in Hp by lia.
      apply Z.ltb_lt in Hp. apply Z.ltb_lt. lia. }
  (* the total that the handler computes *)
  assert (fold_left
            (fun total w =>
               if (Sub now2 (Timestamp w) <? wrap64 (windowSeconds * Second))%Z
               then wrap64 (total + Count w) else total)
            (default [] (windows (cleanup now1 key rl) !! key)) 0%Z
          = in_window (windowSeconds * Second) now2 times) as Htotal.
  { rewrite Hclean, HWd.
    rewrite (total_counts (fun g => (Sub now2 g <? windowSeconds * Second)%Z)).
    - rewrite Z.add_0_l. unfold in_window. do 2 f_equal.
      rewrite filter_filter_impl.
      + apply List.filter_ext_in. intros g Hg.
        apply list_elem_of_In, Htimes in Hg. rewrite Sub_exact by lia.
        destruct (Z.leb_spec g now2); [reflexivity|lia].
      + intros g Hg Hp. apply list_elem_of_In, Htimes in Hg.
        rewrite Sub_exact in Hp by lia.
        apply Z.ltb_lt in Hp. apply Z.ltb_lt. lia.
    - lia.
    - pose proof (List.filter_length_le (fun g => (now1 - g <? Hour)%Z) times).
      lia. }
  unfold allow. cbv zeta. rewrite Htotal.
  destruct (Z.leb_spec maxRequests
              (in_window (windowSeconds * Second) now2 times)) as [Hfull|Hroom];
    cbn [fst snd].
  - (* not allowed *)
    rewrite app_nil_r. split; [lia|]. split; [|split].
    + apply Forall_forall. intros g Hg. apply Htimes in Hg. lia.
    + exists now1. split; [assumption|]. exact Hclean.
    + assumption.
  - (* allowed *)
    split; [lia|]. split; [|split].
    + apply Forall_app. split.
      * apply Forall_forall. intros g Hg. apply Htimes in Hg. lia.
      * constructor; [lia|constructor].
    + exists now1. split; [assumption|]. cbn [windows].
      rewrite lookup_insert_eq. cbn [default]. rewrite Hclean.
      rewrite List.filter_app, map_app. cbn [List.filter].
      destruct (Z.ltb_spec (now1 - now2) Hour) as [_|Hbad];
        [reflexivity|unfold Hour, Second in Hbad; lia].
    + intros T. rewrite in_window_app.
      destruct (Z.leb_spec now2 T) as [HT|HT]; cbn [andb].
      * assert (in_window (windowSeconds * Second) T times
                <= in_window (windowSeconds * Second) now2 times)%Z as Hmono.
        { unfold in_window. apply Nat2Z.inj_le. apply filter_length_impl.
          intros g Hg Hp. apply list_elem_of_In, Htimes in Hg.
          apply andb_true_iff in Hp as [_ Hp%Z.ltb_lt].
          apply andb_true_iff. split; [apply Z.leb_le|apply Z.ltb_lt]; lia. }
        destruct (T - now2 <? windowSeconds * Second)%Z; lia.
      * specialize (Hlimit T). lia.
Qed.

Lemma allow_all_keeps_limited key maxRequests windowSeconds calls :
  (0 <= windowSeconds <= 3600)%Z ->
  forall T0 rl times,
    limited key maxRequests windowSeconds T0 rl times ->
    ticking T0 calls = true ->
    (Z.of_nat (length times + length calls) <= MaxInt64)%Z ->
    exists T1,
      limited key maxRequests windowSeconds T1
        (fst (allow_all key maxRequests windowSeconds calls rl))
        (times ++ snd (allow_all key maxRequests windowSeconds calls rl)).
Proof.
  intros HW. induction calls as [|[now1 now2] calls IH];
    intros T0 rl times Hinv Htick Hlen.
  - exists T0. cbn [allow_all fst snd]. now rewrite app_nil_r.
  - cbn [ticking] in Htick.
    apply andb_true_iff in Htick as [Htick Hrest].
    apply andb_true_iff in Htick as [Htick H2%Z.leb_le].
    apply andb_true_iff in Htick as [H0%Z.leb_le H1%Z.leb_le].
    cbn [length] in Hlen.
    pose proof (allow_keeps_limited key maxRequests windowSeconds T0 rl times
                  now1 now2 HW Hinv H0 H1 H2 ltac:(lia)) as Hstep.
    cbn [allow_all].
    destruct (allow now1 now2 key maxRequests windowSeconds rl)
      as [rl' allowed] eqn:Ea. cbn [fst snd] in Hstep.
    destruct (IH now2 rl' _ Hstep Hrest) as [T1 HT1].
    { rewrite length_app. destruct allowed; cbn [length]; lia. }
    exists T1.
    destruct (allow_all key maxRequests windowSeconds calls rl')
      as [rl'' times'] eqn:Eall. cbn [fst snd] in *.
    rewrite <- app_assoc in HT1. now destruct allowed.
Qed.

(** X20. The limit holds for a window of at most an hour: after any calls
    of [RATELIMIT.ALLOW] for a key, made one after the other with the same
    limit and window on a clock that does not go back, from a new limiter,
    no window of time of this length holds more allowed requests than the
    limit says (none when the limit is negative). *)
Theorem allow_enforces_limit key maxRequests windowSeconds calls T :
  (0 <= windowSeconds <= 3600)%Z ->
  ticking 0 calls = true ->
  (Z.of_nat (length calls) <= MaxInt64)%Z ->
  (in_window (windowSeconds * Second) T
     (snd (allow_all key maxRequests windowSeconds calls NewRateLimiter))
   <= Z.max 0 maxRequests)%Z.
Proof.
  intros HW Htick Hlen.
  destruct (allow_all_keeps_limited key maxRequests windowSeconds calls HW
              0%Z NewRateLimiter []) as [T1 (_ & _ & _ & Hlimit)];
    [|assumption|cbn [length]; lia|apply Hlimit].
  split; [lia|]. split; [constructor|].
  split; [|intros T'; unfold in_window; cbn; lia].
  exists 0%Z. split; [lia|]. reflexivity.
Qed.

Lemma allow_enforces_limit_witness :
  (in_window (60 * Second) (30 * Second)
     (snd (allow_all "user:123" 2 60
             [(0, 0); (10 * Second, 10 * Second); (20 * Second, 21 * Second);
              (30 * Second, 30 * Second)]%Z NewRateLimiter))
   <= Z.max 0 2)%Z.
Proof.
  apply (allow_enforces_limit "user:123" 2 60
           [(0, 0); (10 * Second, 10 * Second); (20 * Second, 21 * Second);
            (30 * Second, 30 * Second)]%Z (30 * Second)).
  - lia.
  - reflexivity.
  - cbn. unfold MaxInt64. lia.
Defined.

Lemma cleanup_missing now key rl :
  windows rl !! key = None -> cleanup now key rl = rl.
Proof. intros H. unfold cleanup. now rewrite H. Qed.

Lemma allow_new_key now1 now2 key maxRequests windowSeconds rl :
  windows rl !! key = None -> (1 <= maxRequests)%Z ->
  allow now1 now2 key maxRequests windowSeconds rl
  = ({| windows := <[key := [{| Timestamp := now2; Count := 1 |}]]> (windows rl) |},
     true).
Proof.
  intros H Hmax. unfold allow. rewrite cleanup_missing by assumption.
  rewrite H. cbn [default fold_left app].
  destruct (Z.leb_spec maxRequests 0); [lia|]. reflexivity.
Qed.

(** X21. However long the window, the limiter forgets a request after one
    hour: with a window of more than an hour and a limit of at least one, a
    request at [t0] and a request one hour later are both allowed, and after
    the second one the limiter holds nothing of the first. With a limit of
    one, two requests are then allowed in one window. *)
Theorem allow_forgets_after_an_hour key maxRequests windowSeconds t0 :
  (3600 < windowSeconds)%Z -> (windowSeconds * Second <= MaxInt64)%Z ->
  (1 <= maxRequests)%Z -> (0 <= t0)%Z -> (t0 + Hour <= MaxInt64)%Z ->
  let first := allow t0 t0 key maxRequests windowSeconds NewRateLimiter in
  let second :=
    allow (t0 + Hour) (t0 + Hour) key maxRequests windowSeconds (fst first) in
  snd first = true /\ snd second = true /\
  windows (fst second) !! key
    = Some [{| Timestamp := t0 + Hour; Count := 1 |}] /\
  (t0 + Hour - t0 < windowSeconds * Second)%Z.
Proof.
  intros HW Hfit Hmax Ht0 Ht1 first second.
  assert (0 < Hour)%Z as Hhour by (unfold Hour, Second; lia).
  assert (first
          = ({| windows := <[key := [{| Timestamp := t0; Count := 1 |}]]> ∅ |},
             true)) as Hfirst
    by (apply allow_new_key; [apply lookup_empty|assumption]).
  assert (cleanup (t0 + Hour) key (fst first)
          = {| windows :=
                 delete key (<[key := [{| Timestamp := t0; Count := 1 |}]]> ∅) |})
    as Hclean.
  { rewrite Hfirst. cbn [fst]. unfold cleanup. cbn [windows].
    rewrite lookup_insert_eq. cbn [List.filter Timestamp].
    rewrite Sub_exact by lia.
    destruct (Z.ltb_spec (t0 + Hour - t0) Hour); [lia|]. reflexivity. }
  assert (second
          = ({| windows :=
                  <[key := [{| Timestamp := t0 + Hour; Count := 1 |}]]>
                    (delete key
                       (<[key := [{| Timestamp := t0; Count := 1 |}]]> ∅)) |},
             true)) as Hsecond.
  { subst second. unfold allow. rewrite Hclean. cbn [windows].
    rewrite lookup_delete_eq. cbn [default fold_left app].
    destruct (Z.leb_spec maxRequests 0); [lia|]. reflexivity. }
  rewrite Hfirst, Hsecond. cbn [fst snd windows].
  split; [reflexivity|]. split; [reflexivity|].
  split; [apply lookup_insert_eq|]. unfold Hour, Second in *. lia.
Qed.

Lemma allow_forgets_after_an_hour_witness :
  snd (allow 0 0 "user:123" 1 7200 NewRateLimiter) = true /\
  snd (allow (0 + Hour) (0 + Hour) "user:123" 1 7200
         (fst (allow 0 0 "user:123" 1 7200 NewRateLimiter))) = true /\
  windows (fst (allow (0 + Hour) (0 + Hour) "user:123" 1 7200
                  (fst (allow 0 0 "user:123" 1 7200 NewRateLimiter))))
    !! "user:123"
    = Some [{| Timestamp := 0 + Hour; Count := 1 |}] /\
  (0 + Hour - 0 < 7200 * Second)%Z.
Proof.
  apply (allow_forgets_after_an_hour "user:123" 1 7200 0);
    unfold Hour, Second, MaxInt64; lia.
Defined.

(** X22. [cleanup] changes the entry of its key only; it keeps, in their
    order, the windows of the key that are less than an hour old, and when
    none is left it removes the entry: it never leaves an empty list under
    the key. *)
Theorem cleanup_keeps_recent now key rl :
  (forall k, k <> key ->
     windows (cleanup now key rl) !! k = windows rl !! k) /\
  default [] (windows (cleanup now key rl) !! key)
    = List.filter (fun w => (Sub now (Timestamp w) <? Hour)%Z)
        (default [] (windows rl !! key)) /\
  windows (cleanup now key rl) !! key <> Some [].
Proof.
  split; [|split; [apply cleanup_lookup|]].
  - intros k Hk. unfold cleanup.
    destruct (windows rl !! key) as [ws|]; [|reflexivity].
    destruct (length _ =? 0)%nat; cbn [windows].
    + now apply lookup_delete_ne.
    + now apply lookup_insert_ne.
  - unfold cleanup. destruct (windows rl !! key) as [ws|] eqn:E;
      [|now rewrite E].
    destruct (List.filter _ ws) as [|w active] eqn:Ef; cbn [length Nat.eqb windows].
    + now rewrite lookup_delete_eq.
    + now rewrite lookup_insert_eq.
Qed.

Lemma cleanup_keeps_recent_witness :
  windows (cleanup (2 * Hour) "a"
             {| windows := {[ "a" := [{| Timestamp := 0; Count := 1 |}];
                              "b" := [{| Timestamp := 0; Count := 1 |}] ]} |})
    !! "b"
  = Some [{| Timestamp := 0; Count := 1 |}].
Proof.
  etransitivity;
    [apply (cleanup_keeps_recent (2 * Hour) "a"); discriminate|reflexivity].
Defined.

End ratelimiter_facts.
